(** * inverted_index.py: a shallow embedding and its properties

    The development follows [src/inverted_index.py]: the tokenizer
    ([re.split] on runs of non-word characters), [build_inverted_index],
    [InvertedIndex.query], [InvertedIndex.dump] / [InvertedIndex.load] over
    the [json] text format, and [load_documents].

    Data model.
    - A Python [str] is a list of code points ([N]).
    - [Dict[int, str]] is [gmap Z str], [Set[str]] is [gset str],
      [Dict[str, Set[int]]] is [gmap str (gset Z)] and [Dict[str, List[int]]]
      is [gmap str (list Z)].  Python integers are unbounded, hence [Z].
    - [list(some_set)] is [elements]: some fixed enumeration without
      repetition, as in Python, where the order is unspecified.
    - Files are a finite map from a path to the decoded text it holds.
    - Exceptions are values of [exn]; a call that may raise returns [result].

    Library tables.  The character classes of the interpreter (the Unicode
    word class of [\W], [str.lower], [int]) are exact on ASCII text and are
    parameters of the development on the rest of Unicode. *)

From Stdlib Require Import ZArith NArith Ascii String Decimal DecimalN DecimalPos DecimalFacts.
From stdpp Require Import base option list gmap fin_maps fin_sets.

#[local] Open Scope N_scope.
#[local] Set Warnings "-clear-no-such-hyp,-register-all".

(** ** Text *)

Abbreviation str := (list N) (only parsing).

(** The code points of an ASCII literal. *)
Definition u (s : string) : str := N_of_ascii <$> list_ascii_of_string s.

Definition TAB : N := 9.
Definition LF : N := 10.

Definition is_ascii (c : N) : bool := c <? 128.

(** [[0-9A-Za-z_]]: the word class on ASCII. *)
Definition ascii_word (c : N) : bool :=
  ((48 <=? c) && (c <=? 57)) || ((65 <=? c) && (c <=? 90))
  || (c =? 95) || ((97 <=? c) && (c <=? 122)).

(** ** Exceptions *)

Inductive exn :=
  | ValueError
  | JSONDecodeError
  | RecursionError
  | FileNotFoundError.

Inductive result (A : Type) :=
  | Ok (a : A)
  | Raise (e : exn).
Arguments Ok {A} a.
Arguments Raise {A} e.

#[global] Instance result_bind : MBind result := λ A B k r,
  match r with
  | Ok a => k a
  | Raise e => Raise e
  end.

(** ** The index object

    [InvertedIndex.__init__] stores its argument without looking at it, so
    the attribute has whatever type the caller passed: the builder passes a
    [Dict[str, List[int]]], [load] passes what [json.load] returned. *)

Record InvertedIndex (A : Type) := { inverted_index : A }.
Arguments Build_InvertedIndex {A} _.
Arguments inverted_index {A} _.

Abbreviation Index := (InvertedIndex (gmap str (list Z))) (only parsing).

Section Tokenizer.

(** The word class of the [re] module above ASCII: [str.isalnum]. *)
Variable uni_word : N → bool.

Definition is_word (c : N) : bool :=
  if is_ascii c then ascii_word c else uni_word c.

(** [re.split(r"\W+", s)].  The pieces between the maximal runs of
    non-word characters, in order; a run at the very start or the very end
    of [s] leaves an empty piece there, and the split of the empty string
    is the one empty piece. *)
Fixpoint re_split (s : str) : list str :=
  match s with
  | [] => [[]]
  | c :: r =>
    if is_word c then
      match re_split r with
      | p :: ps => (c :: p) :: ps
      | [] => [[c]]
      end
    else
      match r with
      | [] => [] :: re_split r
      | c' :: _ => if is_word c' then [] :: re_split r else re_split r
      end
  end.

(** ** build_inverted_index *)

(** The body of the outer [for]: one document. [inverted_index] is the
    [defaultdict(set)], whose missing keys read as the empty set. *)
Definition add_document (stopwords : gset str)
    (inverted_index : gmap str (gset Z)) (item : Z * str) : gmap str (gset Z) :=
  let '(doc_id, content) := item in
  let words := re_split content in
  let filtered_words := filter (λ word, word ∉ stopwords) words in
  foldl (λ acc filtered_word,
           <[filtered_word := acc !!! filtered_word ∪ {[doc_id]}]> acc)
        inverted_index filtered_words.

Definition build_inverted_index (documents : gmap Z str) (stopwords : gset str)
    : Index :=
  let inverted_index := foldl (add_document stopwords) ∅ (map_to_list documents) in
  let mapped_inverted_index := elements <$> inverted_index in
  {| inverted_index := mapped_inverted_index |}.

End Tokenizer.

(** ** InvertedIndex.query *)

(** One turn of the loop: [entry] is [None] for a missing key; [not entry]
    holds for [None] and for the empty list. *)
Definition query_word (self : Index) (result : gset Z) (word : str) : gset Z :=
  match inverted_index self !! word with
  | None => result
  | Some [] => result
  | Some entry => result ∪ list_to_set entry
  end.

Definition query (self : Index) (words : list str) : list Z :=
  let result := foldl (query_word self) ∅ words in
  elements result.


(** ** json: the encoder

    [json.dump(obj, fp)] with the default options ([ensure_ascii], separators
    [", "] and [": "]), for an [obj] of type [Dict[str, List[int]]].  The
    interpreter's optional cap on the length of decimal conversions is taken
    as switched off. *)

Inductive json :=
  | JNull
  | JBool (b : bool)
  | JInt (z : Z)
  | JFloat (lexeme : str)
  | JStr (s : str)
  | JArr (values : list json)
  | JObj (pairs : gmap str json).

Fixpoint uint_str (d : Decimal.uint) : str :=
  match d with
  | Nil => []
  | Decimal.D0 d => 48 :: uint_str d
  | D1 d => 49 :: uint_str d
  | D2 d => 50 :: uint_str d
  | D3 d => 51 :: uint_str d
  | D4 d => 52 :: uint_str d
  | D5 d => 53 :: uint_str d
  | D6 d => 54 :: uint_str d
  | D7 d => 55 :: uint_str d
  | D8 d => 56 :: uint_str d
  | D9 d => 57 :: uint_str d
  end.

(** [int.__repr__] *)
Definition int_repr (z : Z) : str :=
  match z with
  | Z0 => [48]
  | Zpos p => uint_str (Pos.to_uint p)
  | Zneg p => 45 :: uint_str (Pos.to_uint p)
  end.

Definition hex_digit (k : N) : N := if k <? 10 then 48 + k else 87 + k.

(** ['{0:04x}'.format(n)] for [n < 0x10000] *)
Definition hex4 (n : N) : str :=
  [hex_digit (n / 4096 mod 16); hex_digit (n / 256 mod 16);
   hex_digit (n / 16 mod 16); hex_digit (n mod 16)].

Definition u_escape (n : N) : str := 92 :: 117 :: hex4 n.

(** The replacement of one character by [py_encode_basestring_ascii]:
    [ESCAPE_DCT] for the backslash, the quote and the five short control
    escapes, the character itself from the space to the tilde, and a
    [\uXXXX] escape (a surrogate pair above the basic plane) otherwise. *)
Definition escape_char (c : N) : str :=
  if c =? 92 then [92; 92]
  else if c =? 34 then [92; 34]
  else if c =? 8 then [92; 98]
  else if c =? 12 then [92; 102]
  else if c =? 10 then [92; 110]
  else if c =? 13 then [92; 114]
  else if c =? 9 then [92; 116]
  else if (32 <=? c) && (c <=? 126) then [c]
  else if c <? 0x10000 then u_escape c
  else
    let n := c - 0x10000 in
    let s1 := N.lor 0xd800 (N.land (N.shiftr n 10) 0x3ff) in
    let s2 := N.lor 0xdc00 (N.land n 0x3ff) in
    u_escape s1 ++ u_escape s2.

Definition encode_basestring_ascii (s : str) : str :=
  34 :: (s ≫= escape_char) ++ [34].

(** The chunks of [_iterencode_list] / [_iterencode_dict] after the opening
    bracket: every item but the first is preceded by the item separator. *)
Fixpoint encode_items {A} (enc : A → str) (first : bool) (items : list A) : str :=
  match items with
  | [] => []
  | x :: rest => (if first then [] else [44; 32]) ++ enc x ++ encode_items enc false rest
  end.

Definition encode_list (lst : list Z) : str :=
  match lst with
  | [] => [91; 93]
  | _ => 91 :: encode_items int_repr true lst ++ [93]
  end.

Definition encode_pair (item : str * list Z) : str :=
  encode_basestring_ascii item.1 ++ [58; 32] ++ encode_list item.2.

Definition encode_dict (dct : gmap str (list Z)) : str :=
  match map_to_list dct with
  | [] => [123; 125]
  | items => 123 :: encode_items encode_pair true items ++ [125]
  end.

Definition json_dumps (obj : gmap str (list Z)) : str := encode_dict obj.

(** ** json: the decoder

    [json.load(fp)] is [json.loads(fp.read())]; the scanner works on the
    text that remains instead of on an index into it. *)

Definition is_ws (c : N) : bool := (c =? 32) || (c =? 9) || (c =? 10) || (c =? 13).

Fixpoint skip_ws (s : str) : str :=
  match s with
  | c :: r => if is_ws c then skip_ws r else s
  | [] => []
  end.

Definition is_digit (c : N) : bool := (48 <=? c) && (c <=? 57).

Definition hex_val (c : N) : option N :=
  if is_digit c then Some (c - 48)
  else if (97 <=? c) && (c <=? 102) then Some (c - 87)
  else if (65 <=? c) && (c <=? 70) then Some (c - 55)
  else None.

Definition decode_uXXXX (h1 h2 h3 h4 : N) : option N :=
  a ← hex_val h1; b ← hex_val h2; c ← hex_val h3; d ← hex_val h4;
  Some (((a * 16 + b) * 16 + c) * 16 + d).

(** The table [BACKSLASH] of the decoder. *)
Definition backslash (esc : N) : option N :=
  if esc =? 34 then Some 34
  else if esc =? 92 then Some 92
  else if esc =? 47 then Some 47
  else if esc =? 98 then Some 8
  else if esc =? 102 then Some 12
  else if esc =? 110 then Some 10
  else if esc =? 114 then Some 13
  else if esc =? 116 then Some 9
  else None.

Definition push_char (c : N) (r : result (str * str)) : result (str * str) :=
  '(chars, rest) ← r; Ok (c :: chars, rest).

(** [scanstring(s, end, strict=True)], from just after the opening quote:
    the decoded string and the text after the closing quote. *)
Fixpoint scanstring (s : str) : result (str * str) :=
  match s with
  | [] => Raise JSONDecodeError
  | c :: r =>
    if c =? 34 then Ok ([], r)
    else if c =? 92 then
      match r with
      | [] => Raise JSONDecodeError
      | esc :: r1 =>
        if esc =? 117 then
          match r1 with
          | h1 :: h2 :: h3 :: h4 :: r2 =>
            match decode_uXXXX h1 h2 h3 h4 with
            | None => Raise JSONDecodeError
            | Some uni =>
              if (0xd800 <=? uni) && (uni <=? 0xdbff) then
                match r2 with
                | b :: x :: r3 =>
                  if (b =? 92) && (x =? 117) then
                    match r3 with
                    | k1 :: k2 :: k3 :: k4 :: r4 =>
                      match decode_uXXXX k1 k2 k3 k4 with
                      | None => Raise JSONDecodeError
                      | Some uni2 =>
                        if (0xdc00 <=? uni2) && (uni2 <=? 0xdfff) then
                          push_char
                            (0x10000 + N.lor (N.shiftl (uni - 0xd800) 10) (uni2 - 0xdc00))
                            (scanstring r4)
                        else push_char uni (scanstring r2)
                      end
                    | _ => Raise JSONDecodeError
                    end
                  else push_char uni (scanstring r2)
                | _ => push_char uni (scanstring r2)
                end
              else push_char uni (scanstring r2)
            end
          | _ => Raise JSONDecodeError
          end
        else
          match backslash esc with
          | Some char => push_char char (scanstring r1)
          | None => Raise JSONDecodeError
          end
      end
    else if c <? 32 then Raise JSONDecodeError
    else push_char c (scanstring r)
  end.

Fixpoint span_digits (s : str) : str * str :=
  match s with
  | c :: r =>
    if is_digit c then let '(ds, rest) := span_digits r in (c :: ds, rest)
    else ([], s)
  | [] => ([], [])
  end.

(** The first group of [NUMBER_RE]: an optional minus sign, then either a
    single zero or a non-zero digit and all the digits after it. *)
Definition match_integer (s : str) : option (str * str) :=
  let '(sign, s1) :=
    match s with
    | c :: r => if c =? 45 then ([45], r) else ([], s)
    | [] => ([], s)
    end in
  match s1 with
  | c :: r =>
    if c =? 48 then Some (sign ++ [48], r)
    else if is_digit c then
      let '(ds, rest) := span_digits r in Some (sign ++ c :: ds, rest)
    else None
  | [] => None
  end.

(** The optional second group, a dot and one or more digits: empty when it
    does not match. *)
Definition match_frac (s : str) : str * str :=
  match s with
  | c :: r =>
    if c =? 46 then
      match span_digits r with
      | ([], _) => ([], s)
      | (ds, rest) => (46 :: ds, rest)
      end
    else ([], s)
  | [] => ([], s)
  end.

(** The optional third group: [e] or [E], an optional sign, one or more
    digits. *)
Definition match_exp (s : str) : str * str :=
  match s with
  | c :: r =>
    if (c =? 101) || (c =? 69) then
      let '(sign, r1) :=
        match r with
        | g :: r' => if (g =? 45) || (g =? 43) then ([g], r') else ([], r)
        | [] => ([], r)
        end in
      match span_digits r1 with
      | ([], _) => ([], s)
      | (ds, rest) => (c :: sign ++ ds, rest)
      end
    else ([], s)
  | [] => ([], s)
  end.

Fixpoint digits_uint (s : str) : Decimal.uint :=
  match s with
  | [] => Nil
  | c :: r =>
    let d := digits_uint r in
    if c =? 48 then Decimal.D0 d else if c =? 49 then D1 d
    else if c =? 50 then D2 d else if c =? 51 then D3 d
    else if c =? 52 then D4 d else if c =? 53 then D5 d
    else if c =? 54 then D6 d else if c =? 55 then D7 d
    else if c =? 56 then D8 d else if c =? 57 then D9 d
    else Nil
  end.

(** [int(integer)] on a lexeme matched by [match_integer]. *)
Definition parse_int (integer : str) : Z :=
  match integer with
  | c :: ds =>
    if c =? 45 then (- Z.of_N (N.of_uint (digits_uint ds)))%Z
    else Z.of_N (N.of_uint (digits_uint integer))
  | [] => 0%Z
  end.

(** [match_number] and the branch of [_scan_once] that follows it: a lexeme
    with a fraction or an exponent is a float, kept as its lexeme. *)
Definition scan_number (s : str) : option (json * str) :=
  '(integer, s1) ← match_integer s;
  let '(frac, s2) := match_frac s1 in
  let '(exp, s3) := match_exp s2 in
  match frac, exp with
  | [], [] => Some (JInt (parse_int integer), s3)
  | _, _ => Some (JFloat (integer ++ frac ++ exp), s3)
  end.

(** [s[idx:idx + len(p)] == p], with the text after it. *)
Fixpoint strip_prefix (p s : str) : option str :=
  match p, s with
  | [], _ => Some s
  | a :: p', b :: s' => if a =? b then strip_prefix p' s' else None
  | _ :: _, [] => None
  end.

(** The scalar branches of [_scan_once], in its order. *)
Definition scan_scalar (s : str) : result (json * str) :=
  match strip_prefix (u "null") s with
  | Some rest => Ok (JNull, rest)
  | None =>
  match strip_prefix (u "true") s with
  | Some rest => Ok (JBool true, rest)
  | None =>
  match strip_prefix (u "false") s with
  | Some rest => Ok (JBool false, rest)
  | None =>
  match scan_number s with
  | Some res => Ok res
  | None =>
  match strip_prefix (u "NaN") s with
  | Some rest => Ok (JFloat (u "NaN"), rest)
  | None =>
  match strip_prefix (u "Infinity") s with
  | Some rest => Ok (JFloat (u "Infinity"), rest)
  | None =>
  match strip_prefix (u "-Infinity") s with
  | Some rest => Ok (JFloat (u "-Infinity"), rest)
  | None => Raise JSONDecodeError
  end end end end end end end.

(** [dict(pairs)]: a later pair replaces an earlier one with its key. *)
Definition dict {A} (pairs : list (str * A)) : gmap str A :=
  foldl (λ d item, <[item.1 := item.2]> d) ∅ pairs.

(** [_scan_once], [JSONArray] and [JSONObject].  The three call one another;
    [n] bounds the calls still allowed, and [None] is the bound reached.
    [array_items] starts at a value, [object_items] just after the quote
    that opens a key. *)
Fixpoint scan_once (n : nat) (s : str) : option (result (json * str)) :=
  match n with
  | O => None
  | S n =>
    match s with
    | [] => Some (Raise JSONDecodeError)
    | c :: r =>
      if c =? 34 then
        Some ('(chars, rest) ← scanstring r; Ok (JStr chars, rest))
      else if c =? 123 then
        match skip_ws r with
        | q :: r' =>
          if q =? 125 then Some (Ok (JObj ∅, r'))
          else if q =? 34 then object_items n r' []
          else Some (Raise JSONDecodeError)
        | [] => Some (Raise JSONDecodeError)
        end
      else if c =? 91 then
        match skip_ws r with
        | q :: r' =>
          if q =? 93 then Some (Ok (JArr [], r'))
          else array_items n (skip_ws r) []
        | [] => array_items n [] []
        end
      else Some (scan_scalar s)
    end
  end
with array_items (n : nat) (s : str) (values : list json)
    : option (result (json * str)) :=
  match n with
  | O => None
  | S n =>
    match scan_once n s with
    | None => None
    | Some (Raise e) => Some (Raise e)
    | Some (Ok (value, rest)) =>
      let values := values ++ [value] in
      match skip_ws rest with
      | c :: r =>
        if c =? 93 then Some (Ok (JArr values, r))
        else if c =? 44 then array_items n (skip_ws r) values
        else Some (Raise JSONDecodeError)
      | [] => Some (Raise JSONDecodeError)
      end
    end
  end
with object_items (n : nat) (s : str) (pairs : list (str * json))
    : option (result (json * str)) :=
  match n with
  | O => None
  | S n =>
    match scanstring s with
    | Raise e => Some (Raise e)
    | Ok (key, rest) =>
      match skip_ws rest with
      | c :: r =>
        if c =? 58 then
          match scan_once n (skip_ws r) with
          | None => None
          | Some (Raise e) => Some (Raise e)
          | Some (Ok (value, rest)) =>
            let pairs := pairs ++ [(key, value)] in
            match skip_ws rest with
            | c :: r =>
              if c =? 125 then Some (Ok (JObj (dict pairs), r))
              else if c =? 44 then
                match skip_ws r with
                | q :: r' =>
                  if q =? 34 then object_items n r' pairs
                  else Some (Raise JSONDecodeError)
                | [] => Some (Raise JSONDecodeError)
                end
              else Some (Raise JSONDecodeError)
            | [] => Some (Raise JSONDecodeError)
            end
          end
        else Some (Raise JSONDecodeError)
      | [] => Some (Raise JSONDecodeError)
      end
    end
  end.

(** [JSONDecoder.decode]: one value between optional whitespace, and nothing
    after it.  Two limits of the interpreter are not followed: on a value
    nested deeper than its recursion limit it raises [RecursionError], and
    on an integer of more digits than its conversion cap (4300 by default) it
    raises [ValueError].  What [dump] writes is within both. *)
Definition json_loads (s : str) : result json :=
  match scan_once (2 * length s + 1) (skip_ws s) with
  | None => Raise RecursionError
  | Some r =>
    '(obj, rest) ← r;
    match skip_ws rest with
    | [] => Ok obj
    | _ :: _ => Raise JSONDecodeError
    end
  end.

(** ** InvertedIndex.dump and InvertedIndex.load

    [get_handler] hands back an open text stream or opens the path it is
    given; either way [dump] replaces the text behind [handler] and [load]
    reads all of it.  A path that names no file cannot be opened for
    reading.  The other ways the operating system can refuse a file (a
    directory that does not exist, a path that is not writable, bytes that
    are not UTF-8) have no counterpart in the file map: the paths are taken
    as writable, the files as decoded text. *)

Definition dump (self : Index) (handler : str) (fs : gmap str str) : gmap str str :=
  <[handler := json_dumps (inverted_index self)]> fs.

Definition load (handler : str) (fs : gmap str str) : result (InvertedIndex json) :=
  match fs !! handler with
  | None => Raise FileNotFoundError
  | Some text => obj ← json_loads text; Ok {| inverted_index := obj |}
  end.

(** The decoded value read at the type the class declares for its
    attribute, [Dict[str, List[int]]]; [None] when it is of another shape. *)
Definition as_int (v : json) : option Z :=
  match v with
  | JInt z => Some z
  | _ => None
  end.

Definition as_ids (v : json) : option (list Z) :=
  match v with
  | JArr values => mapM as_int values
  | _ => None
  end.

Definition as_index (v : json) : option (gmap str (list Z)) :=
  match v with
  | JObj pairs =>
    if decide (map_Forall (λ _ ids, is_Some (as_ids ids)) pairs)
    then Some (omap as_ids pairs)
    else None
  | _ => None
  end.

Definition typed (self : InvertedIndex json) : option Index :=
  Build_InvertedIndex <$> as_index (inverted_index self).

(** ** load_documents *)

Definition ascii_lower (c : N) : N :=
  if (65 <=? c) && (c <=? 90) then c + 32 else c.

(** The whitespace that [int] strips from an ASCII string. *)
Definition is_space (c : N) : bool := ((9 <=? c) && (c <=? 13)) || (c =? 32).

Fixpoint lstrip (s : str) : str :=
  match s with
  | c :: r => if is_space c then lstrip r else s
  | [] => []
  end.

Definition strip (s : str) : str := reverse (lstrip (reverse (lstrip s))).

(** Decimal digits with single underscores between them. [after_digit]
    tells whether the character before was a digit. *)
Fixpoint int_digits (after_digit : bool) (s : str) : option str :=
  match s with
  | [] => if after_digit then Some [] else None
  | c :: r =>
    if is_digit c then ds ← int_digits true r; Some (c :: ds)
    else if (c =? 95) && after_digit then int_digits false r
    else None
  end.

(** [int(s)] for an ASCII [s]: whitespace around, an optional sign, digits. *)
Definition int_ascii (s : str) : option Z :=
  match strip s with
  | [] => None
  | c :: r =>
    if c =? 45 then ds ← int_digits false r; Some (- Z.of_N (N.of_uint (digits_uint ds)))%Z
    else if c =? 43 then ds ← int_digits false r; Some (Z.of_N (N.of_uint (digits_uint ds)))
    else ds ← int_digits false (c :: r); Some (Z.of_N (N.of_uint (digits_uint ds)))
  end.

(** The lines a text file yields when iterated: each keeps its newline, the
    last one may lack it.  The text is the decoded one, in which every line
    ending is already the one newline character. *)
Fixpoint readlines (s : str) : list str :=
  match s with
  | [] => []
  | c :: r =>
    if c =? LF then [LF] :: readlines r
    else
      match readlines r with
      | line :: lines => (c :: line) :: lines
      | [] => [[c]]
      end
  end.

(** [s.split("\t", 1)]: one piece without a tab, or the pieces before and
    after the first tab. *)
Fixpoint split_tab (s : str) : list str :=
  match s with
  | [] => [[]]
  | c :: r =>
    if c =? TAB then [[]; r]
    else
      match split_tab r with
      | p :: ps => (c :: p) :: ps
      | [] => [[c]]
      end
  end.

Section Corpus.

(** [str.lower] and [int] on strings that are not all ASCII. *)
Variable uni_lower : str → str.
Variable uni_int : str → option Z.

Definition str_lower (s : str) : str :=
  if forallb is_ascii s then ascii_lower <$> s else uni_lower s.

Definition py_int (s : str) : option Z :=
  if forallb is_ascii s then int_ascii s else uni_int s.

(** [doc_id, content = line.lower().split("\t", 1)] with [int(doc_id)]:
    unpacking anything but two pieces raises, and so does [int]. *)
Definition parse_line (line : str) : result (Z * str) :=
  match split_tab (str_lower line) with
  | [doc_id; content] =>
    match py_int doc_id with
    | Some k => Ok (k, content)
    | None => Raise ValueError
    end
  | _ => Raise ValueError
  end.

(** The [for] loop over the lines, from the dictionary built so far. *)
Fixpoint load_lines (documents : gmap Z str) (lines : list str)
    : result (gmap Z str) :=
  match lines with
  | [] => Ok documents
  | line :: rest =>
    '(k, content) ← parse_line line;
    load_lines (<[k := content]> documents) rest
  end.

Definition load_documents (handler : str) (fs : gmap str str)
    : result (gmap Z str) :=
  match fs !! handler with
  | None => Raise FileNotFoundError
  | Some text => load_lines ∅ (readlines text)
  end.

End Corpus.

(** ** load_stopwords and process_build *)

(** [str.isspace] on ASCII: the characters [str.strip] removes. *)
Definition ascii_whitespace (c : N) : bool :=
  ((9 <=? c) && (c <=? 13)) || ((28 <=? c) && (c <=? 31)) || (c =? 32).

Fixpoint lstrip_whitespace (s : str) : str :=
  match s with
  | c :: r => if ascii_whitespace c then lstrip_whitespace r else s
  | [] => []
  end.

Definition ascii_strip (s : str) : str :=
  reverse (lstrip_whitespace (reverse (lstrip_whitespace s))).

Section Pipeline.

Variable uni_word : N → bool.
Variable uni_lower : str → str.
Variable uni_int : str → option Z.

(** [str.strip] on strings that are not all ASCII. *)
Variable uni_strip : str → str.

Definition str_strip (s : str) : str :=
  if forallb is_ascii s then ascii_strip s else uni_strip s.

(** [set(word.strip().lower() for word in f)] *)
Definition load_stopwords (handler : str) (fs : gmap str str) : result (gset str) :=
  match fs !! handler with
  | None => Raise FileNotFoundError
  | Some text =>
    Ok (list_to_set ((λ word, str_lower uni_lower (str_strip word)) <$> readlines text))
  end.

(** The pipeline: load the documents, then the stopwords, build, dump.  It
    returns nothing; the files after it are its effect. *)
Definition process_build (dataset stopwords output : str) (fs : gmap str str)
    : result (gmap str str) :=
  documents ← load_documents uni_lower uni_int dataset fs;
  stop_words ← load_stopwords stopwords fs;
  let inverted_index := build_inverted_index uni_word documents stop_words in
  Ok (dump inverted_index output fs).

End Pipeline.

(** * Properties *)

(** ** The definitions at work *)

(** A table for texts that are all ASCII, where it is never consulted. *)
Definition ascii_only : N → bool := λ _, false.

(** Tables for texts that are all ASCII, where they are never consulted. *)
Definition no_uni_lower : str → str := λ s, s.
Definition no_uni_int : str → option Z := λ _, None.

Definition QUOTE : N := 34.

Example re_split_inner_run :
  re_split ascii_only (u "the  cat, sat") = [u "the"; u "cat"; u "sat"].
Proof. vm_compute. reflexivity. Qed.

Example re_split_outer_runs :
  re_split ascii_only (u " a  b ") = [[]; u "a"; u "b"; []]
  ∧ re_split ascii_only [] = [[]]
  ∧ re_split ascii_only (u "--") = [[]; []].
Proof. repeat split; vm_compute; reflexivity. Qed.

Example build_two_documents :
  inverted_index
    (build_inverted_index ascii_only
       {[ 0%Z := u "the cat sat"; 1%Z := u "the dog ran the cat" ]} {[ u "the" ]})
  = {[ u "cat" := [1%Z; 0%Z]; u "sat" := [0%Z]; u "dog" := [1%Z]; u "ran" := [1%Z] ]}.
Proof. vm_compute. reflexivity. Qed.

Example query_two_terms :
  query {| inverted_index := {[ u "cat" := [0%Z]; u "dog" := [1%Z; 0%Z] ]} |}
    [u "cat"; u "zzz"; u "dog"] = [1%Z; 0%Z].
Proof. vm_compute. reflexivity. Qed.

Example json_dumps_escapes :
  json_dumps {[ [233; 128512; 10] := [0%Z; (-12)%Z] ]}
  = u "{" ++ [QUOTE] ++ u "\u00e9\ud83d\ude00\n" ++ [QUOTE] ++ u ": [0, -12]}".
Proof. vm_compute. reflexivity. Qed.

Example json_loads_values :
  json_loads (u " [1.5e3, -0, -Infinity, null, true, [ ], {} ] ")
  = Ok (JArr [JFloat (u "1.5e3"); JInt 0; JFloat (u "-Infinity"); JNull;
              JBool true; JArr []; JObj ∅]).
Proof. vm_compute. reflexivity. Qed.

Example json_loads_duplicate_key :
  json_loads (u "{" ++ [QUOTE] ++ u "a" ++ [QUOTE] ++ u ": [1], "
              ++ [QUOTE] ++ u "\u0061" ++ [QUOTE] ++ u " : [2]}")
  = Ok (JObj {[ u "a" := JArr [JInt 2] ]}).
Proof. vm_compute. reflexivity. Qed.

Example json_loads_rejects :
  json_loads (u "[1,]") = Raise JSONDecodeError
  ∧ json_loads (u "[01]") = Raise JSONDecodeError
  ∧ json_loads (u "[1] [2]") = Raise JSONDecodeError
  ∧ json_loads (u "") = Raise JSONDecodeError
  ∧ json_loads (u "{a: 1}") = Raise JSONDecodeError.
Proof. repeat split; vm_compute; reflexivity. Qed.

Example int_ascii_grammar :
  int_ascii <$> [u "12"; u "-0"; u "+7"; u " 1_000 "; u "012";
                 u "_1"; u "1__0"; u "1_"; u ""; u "+"; u "0x10"; u "1 2"]
  = [Some 12%Z; Some 0%Z; Some 7%Z; Some 1000%Z; Some 12%Z;
     None; None; None; None; None; None; None].
Proof. vm_compute. reflexivity. Qed.

Example load_documents_lowers :
  load_documents no_uni_lower no_uni_int (u "corpus")
    {[ u "corpus" := u "0" ++ [TAB] ++ u "The Cat" ++ [TAB] ++ u "sat" ++ [LF]
                     ++ u "1" ++ [TAB] ++ u "the dog" ]}
  = Ok {[ 0%Z := u "the cat" ++ [TAB] ++ u "sat" ++ [LF]; 1%Z := u "the dog" ]}.
Proof. vm_compute. reflexivity. Qed.


(** ** The tokenizer *)

Definition starts_with_separator (uni_word : N → bool) (s : str) : Prop :=
  ∃ c r, s = c :: r ∧ is_word uni_word c = false.

Definition ends_with_separator (uni_word : N → bool) (s : str) : Prop :=
  ∃ c, last s = Some c ∧ is_word uni_word c = false.

Section TokenizerFacts.

Variable uni_word : N → bool.

#[local] Abbreviation is_word := (is_word uni_word).
#[local] Abbreviation re_split := (re_split uni_word).

Lemma re_split_nonempty s : re_split s ≠ [].
Proof.
  induction s as [|c r IH]; [done|]. simpl.
  destruct (is_word c).
  - by destruct (re_split r).
  - destruct r as [|c' r']; [done|]. by destruct (is_word c').
Qed.

Lemma re_split_cons_word c r :
  is_word c = true →
  ∃ p ps, re_split r = p :: ps ∧ re_split (c :: r) = (c :: p) :: ps.
Proof.
  intros Hc. simpl. rewrite Hc.
  pose proof (re_split_nonempty r) as Hne.
  destruct (re_split r) as [|p ps]; [done|by eauto].
Qed.

(** The two equations of splitting on a regular expression: text ending
    in a word run is one more piece; a piece ends at a maximal run of
    separators. *)
Lemma re_split_word_run w :
  Forall (λ c, is_word c = true) w → re_split w = [w].
Proof.
  induction 1 as [|c w Hc _ IH]; [done|].
  simpl. by rewrite Hc, IH.
Qed.

Lemma re_split_separators q rest :
  q ≠ [] →
  Forall (λ c, is_word c = false) q →
  ¬ starts_with_separator uni_word rest →
  re_split (q ++ rest) = [] :: re_split rest.
Proof.
  intros Hq Hsep Hrest. induction Hsep as [|c q Hc Hsep IH]; [done|].
  simpl. rewrite Hc. destruct q as [|c' q'].
  - simpl. destruct rest as [|c' r']; [done|].
    destruct (is_word c') eqn:Hc'; [done|].
    destruct Hrest. by exists c', r'.
  - simpl ((c' :: q') ++ rest).
    inversion Hsep as [|? ? Hc' _]; subst. rewrite Hc'. by apply IH.
Qed.

Lemma re_split_step w q rest :
  Forall (λ c, is_word c = true) w →
  q ≠ [] →
  Forall (λ c, is_word c = false) q →
  ¬ starts_with_separator uni_word rest →
  re_split (w ++ q ++ rest) = w :: re_split rest.
Proof.
  intros Hw Hq Hsep Hrest. induction Hw as [|c w Hc _ IH].
  - simpl. by apply re_split_separators.
  - simpl. simpl in IH. by rewrite Hc, IH.
Qed.

(** Tokens are made of word characters only. *)
Lemma re_split_word_chars s t :
  t ∈ re_split s → Forall (λ c, is_word c = true) t.
Proof.
  revert t. induction s as [|c r IH]; intros t.
  - simpl. intros ->%list_elem_of_singleton. constructor.
  - destruct (is_word c) eqn:Hc.
    + destruct (re_split_cons_word c r Hc) as (p & ps & Hr & ->).
      rewrite Hr in IH. intros [->|Ht]%elem_of_cons.
      * constructor; [done|]. apply IH. left.
      * apply IH. by right.
    + simpl. rewrite Hc. destruct r as [|c' r'].
      * intros [->|Ht]%elem_of_cons; [constructor|by apply IH].
      * destruct (is_word c'); [|by apply IH].
        intros [->|Ht]%elem_of_cons; [constructor|by apply IH].
Qed.

Lemma re_split_cons_separator c r :
  is_word c = false →
  re_split (c :: r) =
    match r with
    | [] => [[]; []]
    | c' :: _ => if is_word c' then [] :: re_split r else re_split r
    end.
Proof. intros Hc. simpl. rewrite Hc. by destruct r. Qed.

(** Where the empty token comes from.  The first piece is empty exactly
    for the empty text and for a text that opens with a separator; a later
    piece is empty exactly when the text closes with a separator. *)
Lemma re_split_shape s :
  ∃ p ps, re_split s = p :: ps
    ∧ (p = [] ↔ s = [] ∨ starts_with_separator uni_word s)
    ∧ ([] ∈ ps ↔ ends_with_separator uni_word s).
Proof.
  induction s as [|c r IH].
  - exists [], []. split; [done|]. split; [tauto|].
    split; [by intros ?%elem_of_nil|]. by intros (c & ? & _).
  - destruct IH as (p & ps & Hr & Hp & Hps).
    assert (Hlast : ∀ c', r ≠ [] →
      ends_with_separator uni_word (c' :: r) ↔ ends_with_separator uni_word r).
    { intros c' Hne. unfold ends_with_separator.
      destruct r as [|c'' r']; [done|]. by rewrite last_cons_cons. }
    assert (Hstart : starts_with_separator uni_word (c :: r) ↔ is_word c = false).
    { split; [by intros (c0 & r0 & [= <- <-] & ?)|]. intros ?. by exists c, r. }
    destruct (is_word c) eqn:Hc.
    + destruct (re_split_cons_word c r Hc) as (p' & ps' & Hr' & ->).
      rewrite Hr in Hr'. injection Hr' as <- <-.
      exists (c :: p), ps. split; [done|]. split.
      * rewrite Hstart. intuition congruence.
      * destruct r as [|c' r'].
        { simpl in Hr. injection Hr as <- <-. split.
          - by intros ?%elem_of_nil.
          - intros (c0 & [= <-] & ?). congruence. }
        by rewrite Hps, Hlast.
    + rewrite (re_split_cons_separator c r Hc). destruct r as [|c' r'].
      * exists [], [[]]. split; [done|]. split.
        -- rewrite Hstart. intuition congruence.
        -- split; [|intros _; left]. intros _. by exists c.
      * assert (Hstart' :
          starts_with_separator uni_word (c' :: r') ↔ is_word c' = false).
        { split; [by intros (c0 & r0 & [= <- <-] & ?)|]. intros ?. by exists c', r'. }
        destruct (is_word c') eqn:Hc'.
        -- exists [], (p :: ps). split; [by rewrite Hr|]. split.
           ++ rewrite Hstart. intuition congruence.
           ++ rewrite Hlast by done. rewrite <- Hps, elem_of_cons.
              split; [|by auto].
              intros [Hp0|?]; [|done]. symmetry in Hp0.
              apply Hp in Hp0 as [?|?%Hstart']; congruence.
        -- exists p, ps. split; [exact Hr|]. split.
           ++ rewrite Hp, Hstart, Hstart'. intuition congruence.
           ++ by rewrite Hlast.
Qed.

Lemma re_split_empty_token s :
  [] ∈ re_split s ↔
  s = [] ∨ starts_with_separator uni_word s ∨ ends_with_separator uni_word s.
Proof.
  destruct (re_split_shape s) as (p & ps & -> & Hp & Hps).
  rewrite elem_of_cons, <- Hps. split.
  - intros [Hp0|?]; [|by auto]. symmetry in Hp0. apply Hp in Hp0. tauto.
  - intros [?|[?|?]]; [left; symmetry; apply Hp; by left
                      |left; symmetry; apply Hp; by right|by right].
Qed.

End TokenizerFacts.

(** ** The builder *)

Section BuilderFacts.

Variable uni_word : N → bool.

#[local] Abbreviation re_split := (re_split uni_word).

Implicit Types (m : gmap str (gset Z)) (t word : str) (d doc_id : Z).

Lemma lookup_total_default m t : m !!! t = default ∅ (m !! t).
Proof. by rewrite lookup_total_alt. Qed.

(** The inner loop: every word gets [doc_id], the other keys are left as
    they were. *)
Lemma add_words_lookup doc_id words m t :
  foldl (λ acc w, <[w := acc !!! w ∪ {[doc_id]}]> acc) m words !! t
  = if decide (t ∈ words) then Some (m !!! t ∪ {[doc_id]}) else m !! t.
Proof.
  revert m. induction words as [|w words IH]; intros m; cbn [foldl].
  { case_decide as H; [by apply elem_of_nil in H|done]. }
  rewrite IH. destruct (decide (t = w)) as [->|Hne].
  - rewrite lookup_total_insert_eq, lookup_insert_eq.
    destruct (decide (w ∈ w :: words)) as [_|[]]; [|left].
    case_decide; [|done]. f_equal. set_solver.
  - rewrite lookup_total_insert_ne, lookup_insert_ne by done.
    destruct (decide (t ∈ words)) as [Hin|Hin];
      destruct (decide (t ∈ w :: words)) as [Hin'|Hin']; try done.
    + destruct Hin'. by right.
    + by apply elem_of_cons in Hin' as [?|?].
Qed.

Lemma add_document_lookup stopwords m doc_id content t :
  add_document uni_word stopwords m (doc_id, content) !! t
  = if decide (t ∈ re_split content ∧ t ∉ stopwords)
    then Some (m !!! t ∪ {[doc_id]}) else m !! t.
Proof.
  unfold add_document. rewrite add_words_lookup.
  destruct (decide (t ∈ re_split content ∧ t ∉ stopwords)) as [H|H].
  - rewrite decide_True; [done|]. apply list_elem_of_filter. tauto.
  - rewrite decide_False; [done|]. rewrite list_elem_of_filter. tauto.
Qed.

(** [doc_id] has [t] among its tokens and [t] is not a stopword, for one
    of the documents of [items]. *)
Definition indexed (stopwords : gset str) (items : list (Z * str)) t doc_id : Prop :=
  ∃ content,
    (doc_id, content) ∈ items ∧ t ∈ re_split content ∧ t ∉ stopwords.

(** The outer loop: membership after it, and no key with an empty set. *)
Lemma build_loop_member stopwords items m t d :
  d ∈ foldl (add_document uni_word stopwords) m items !!! t
  ↔ d ∈ m !!! t ∨ indexed stopwords items t d.
Proof.
  revert m. induction items as [|[doc_id content] items IH]; intros m; cbn [foldl].
  { split; [by left|]. intros [?|(c & []%elem_of_nil & _)]. done. }
  rewrite IH. rewrite (lookup_total_default (add_document _ _ _ _)).
  rewrite add_document_lookup. unfold indexed.
  setoid_rewrite elem_of_cons. case_decide as Ht; simpl.
  - rewrite elem_of_union, elem_of_singleton. split.
    + intros [[?| ->]|(c & ? & ?)]; [by left| |by eauto 6].
      right. exists content. tauto.
    + intros [?|(c & [[= -> ->]|?] & ? & ?)]; [by auto|by auto|by eauto 6].
  - rewrite <- lookup_total_default. split.
    + intros [?|(c & ? & ?)]; [by left|by eauto 6].
    + intros [?|(c & [[= -> ->]|?] & ? & ?)]; [by left|tauto|by eauto 6].
Qed.

Lemma build_loop_nonempty stopwords items m :
  map_Forall (λ _ doc_ids, doc_ids ≠ ∅) m →
  map_Forall (λ _ doc_ids, doc_ids ≠ ∅) (foldl (add_document uni_word stopwords) m items).
Proof.
  revert m. induction items as [|[doc_id content] items IH]; intros m Hm; [done|].
  cbn [foldl]. apply IH. intros t doc_ids. rewrite add_document_lookup.
  case_decide; [|by apply Hm]. intros [= <-]. set_solver.
Qed.

Lemma build_lookup documents stopwords t :
  inverted_index (build_inverted_index uni_word documents stopwords) !! t
  = elements <$> foldl (add_document uni_word stopwords) ∅ (map_to_list documents) !! t.
Proof. unfold build_inverted_index. simpl. by rewrite lookup_fmap. Qed.

Lemma build_member documents stopwords t d :
  (∃ ids, inverted_index (build_inverted_index uni_word documents stopwords) !! t = Some ids
          ∧ d ∈ ids)
  ↔ indexed stopwords (map_to_list documents) t d.
Proof.
  rewrite build_lookup.
  pose proof (build_loop_member stopwords (map_to_list documents) ∅ t d) as H.
  rewrite (lookup_total_default ∅), lookup_empty in H. simpl in H.
  rewrite lookup_total_default in H.
  assert (H' : d ∈ default ∅ (foldl (add_document uni_word stopwords) ∅
                                (map_to_list documents) !! t)
               ↔ indexed stopwords (map_to_list documents) t d).
  { rewrite H. split; [|by right]. by intros [?%not_elem_of_empty|?]. }
  clear H. rewrite <- H'.
  destruct (foldl _ _ _ !! t) as [doc_ids|]; simpl.
  - split.
    + intros (ids & [= <-] & ?). by apply elem_of_elements.
    + intros ?. eexists. split; [done|]. by apply elem_of_elements.
  - split; [by intros (? & ? & ?)|]. by intros ?%not_elem_of_empty.
Qed.

Lemma build_key documents stopwords t :
  is_Some (inverted_index (build_inverted_index uni_word documents stopwords) !! t)
  ↔ ∃ d, indexed stopwords (map_to_list documents) t d.
Proof.
  setoid_rewrite <- build_member. split; [|by intros (d & ids & -> & _)].
  rewrite build_lookup. intros [ids Hids].
  destruct (foldl _ _ _ !! t) as [doc_ids|] eqn:E; [|done].
  apply (build_loop_nonempty stopwords (map_to_list documents) ∅) in E;
    [|apply map_Forall_empty].
  apply set_choose_L in E as [d Hd]. exists d, ids. split; [done|].
  injection Hids as <-. by apply elem_of_elements.
Qed.

End BuilderFacts.

(** C1.  Build correctness.  For all documents, stopwords, token [t] and
    document id [d]: the built index has [d] in its collection for the key
    [t] if and only if [d] is the id of a document whose content, split on
    runs of non-word characters, has [t] among its pieces, and [t] is not a
    stopword. *)
Theorem build_index_membership (uni_word : N → bool)
    (documents : gmap Z str) (stopwords : gset str) (t : str) (d : Z) :
  (∃ ids,
     inverted_index (build_inverted_index uni_word documents stopwords) !! t = Some ids
     ∧ d ∈ ids)
  ↔ (∃ content,
       documents !! d = Some content
       ∧ t ∈ re_split uni_word content
       ∧ t ∉ stopwords).
Proof.
  rewrite build_member. unfold indexed.
  by setoid_rewrite elem_of_map_to_list.
Qed.

(** C2, as the code has it.  The tokenizer keeps the empty piece that
    [re.split] leaves before a separator that opens the content and after one
    that closes it (and for an empty content); separators in a row inside the
    content leave none.  So the empty string is a key of the built index
    exactly when it is not a stopword and some document has a content that is
    empty or opens or closes with a separator. *)
Theorem empty_token_kept (uni_word : N → bool)
    (documents : gmap Z str) (stopwords : gset str) :
  (∀ content,
     [] ∈ re_split uni_word content
     ↔ content = []
       ∨ starts_with_separator uni_word content
       ∨ ends_with_separator uni_word content)
  ∧ (is_Some (inverted_index (build_inverted_index uni_word documents stopwords) !! [])
     ↔ ([] ∉ stopwords)
       ∧ ∃ d content,
           documents !! d = Some content
           ∧ (content = []
              ∨ starts_with_separator uni_word content
              ∨ ends_with_separator uni_word content)).
Proof.
  split; [apply re_split_empty_token|].
  rewrite build_key. unfold indexed.
  setoid_rewrite elem_of_map_to_list. setoid_rewrite re_split_empty_token.
  split.
  - intros (d & content & ? & ? & ?). eauto.
  - intros (? & d & content & ? & ?). eauto.
Qed.

(** C2, counterexample to the sentence of the specification: the line
    [the cat sat] ends with its newline, the split leaves an empty piece after it, and the empty string
    becomes a key. *)
Lemma empty_token_indexed :
  re_split ascii_only (u "the cat sat" ++ [LF]) = [u "the"; u "cat"; u "sat"; []]
  ∧ inverted_index
      (build_inverted_index ascii_only
         {[ 0%Z := u "the cat sat" ++ [LF] ]} {[ u "the" ]}) !! []
    = Some [0%Z].
Proof. split; vm_compute; reflexivity. Qed.

(** ** The query *)

(** What one word adds to the result. *)
Definition postings (self : Index) (word : str) : gset Z :=
  list_to_set (default [] (inverted_index self !! word)).

Lemma query_word_union (self : Index) (result : gset Z) (word : str) :
  query_word self result word = result ∪ postings self word.
Proof.
  unfold query_word, postings.
  destruct (inverted_index self !! word) as [[|id ids]|]; simpl; set_solver.
Qed.

Lemma query_loop (self : Index) (words : list str) (result : gset Z) :
  foldl (query_word self) result words = result ∪ ⋃ (postings self <$> words).
Proof.
  revert result. induction words as [|w words IH]; intros result; simpl.
  - set_solver.
  - rewrite IH, query_word_union. set_solver.
Qed.

Lemma elem_of_postings (self : Index) (word : str) (d : Z) :
  d ∈ postings self word ↔ ∃ ids, inverted_index self !! word = Some ids ∧ d ∈ ids.
Proof.
  unfold postings. destruct (inverted_index self !! word) as [ids|]; simpl.
  - rewrite elem_of_list_to_set. naive_solver.
  - rewrite elem_of_empty. naive_solver.
Qed.

Lemma query_set (self : Index) (words : list str) :
  list_to_set (query self words) =@{gset Z} ⋃ (postings self <$> words).
Proof.
  unfold query. rewrite list_to_set_elements_L, query_loop. set_solver.
Qed.

Lemma elem_of_query (self : Index) (words : list str) (d : Z) :
  d ∈ query self words
  ↔ ∃ t ids, t ∈ words ∧ inverted_index self !! t = Some ids ∧ d ∈ ids.
Proof.
  rewrite <- (elem_of_list_to_set (C := gset Z)), query_set, elem_of_union_list.
  setoid_rewrite list_elem_of_fmap. split.
  - intros (X & (t & -> & Ht) & (ids & ? & ?)%elem_of_postings). eauto.
  - intros (t & ids & Ht & ? & ?). exists (postings self t).
    split; [by eauto|]. apply elem_of_postings. eauto.
Qed.

Lemma query_skip (self : Index) (t : str) (before after : list str) :
  postings self t = ∅ →
  query self (before ++ t :: after) = query self (before ++ after).
Proof.
  intros Ht. unfold query. f_equal. rewrite !query_loop, !fmap_app, !union_list_app_L.
  rewrite fmap_cons, union_list_cons, Ht. set_solver.
Qed.

(** C4.  Query union semantics.  The result has no duplicates; an id is in
    it exactly when it is in the id list of some queried term that is a key;
    a term that is not a key changes nothing wherever it stands in the
    query; the query with no term returns nothing.  [query] is a total
    function: no call raises. *)
Theorem query_union_semantics (self : Index) (words : list str) :
  NoDup (query self words)
  ∧ (∀ d, d ∈ query self words
          ↔ ∃ t ids, t ∈ words ∧ inverted_index self !! t = Some ids ∧ d ∈ ids)
  ∧ (∀ t before after,
       words = before ++ t :: after →
       inverted_index self !! t = None →
       query self words = query self (before ++ after))
  ∧ query self [] = [].
Proof.
  split; [apply NoDup_elements|]. split; [apply elem_of_query|]. split.
  - intros t before after -> Ht. apply query_skip.
    unfold postings. by rewrite Ht.
  - unfold query. simpl. apply elements_empty.
Qed.

Lemma query_union_semantics_witness :
  let self : Index :=
    {| inverted_index := {[ u "cat" := [0%Z]; u "dog" := [1%Z] ]} |} in
  inverted_index self !! u "zzz" = None
  ∧ query self [u "cat"; u "zzz"; u "dog"] = query self [u "cat"; u "dog"].
Proof.
  intros self. split; [vm_compute; reflexivity|].
  destruct (query_union_semantics self [u "cat"; u "zzz"; u "dog"])
    as (_ & _ & Hskip & _).
  apply (Hskip (u "zzz") [u "cat"] [u "dog"]); reflexivity.
Defined.

(** C7.  Query laws.  The query of no term is empty; the set returned for
    [A ++ B] is the union of the sets returned for [A] and for [B]; the set
    returned for [[t; t]] is the one returned for [[t]]. *)
Theorem query_laws (self : Index) :
  query self [] = []
  ∧ (∀ A B,
       list_to_set (query self (A ++ B))
       =@{gset Z} list_to_set (query self A) ∪ list_to_set (query self B))
  ∧ (∀ t, list_to_set (query self [t; t]) =@{gset Z} list_to_set (query self [t])).
Proof.
  split; [unfold query; simpl; apply elements_empty|]. split.
  - intros A B. by rewrite !query_set, fmap_app, union_list_app_L.
  - intros t. rewrite !query_set. simpl. set_solver.
Qed.

(** C10.  An empty stored entry is tolerated: when the mapping binds [t] to
    the empty list, every query returns what it returns on the mapping
    without [t]. *)
Theorem query_empty_entry (self : Index) (t : str) (words : list str) :
  inverted_index self !! t = Some [] →
  query self words
  = query {| inverted_index := delete t (inverted_index self) |} words.
Proof.
  intros Ht. unfold query. f_equal. rewrite !query_loop. do 2 f_equal.
  apply list_fmap_ext. intros _ w _. unfold postings. simpl.
  destruct (decide (w = t)) as [->|Hne].
  - by rewrite Ht, lookup_delete_eq.
  - by rewrite lookup_delete_ne.
Qed.

Lemma query_empty_entry_witness :
  let self : Index :=
    {| inverted_index := {[ u "cat" := [0%Z]; u "dog" := [] ]} |} in
  inverted_index self !! u "dog" = Some []
  ∧ query self [u "dog"; u "cat"]
    = query {| inverted_index := delete (u "dog") (inverted_index self) |}
        [u "dog"; u "cat"].
Proof.
  intros self.
  assert (H : inverted_index self !! u "dog" = Some []) by (vm_compute; reflexivity).
  split; [exact H|]. exact (query_empty_entry self (u "dog") [u "dog"; u "cat"] H).
Defined.

(** ** The corpus loader *)

Lemma split_tab_without (s : str) : TAB ∉ s → split_tab s = [s].
Proof.
  induction s as [|c r IH]; [done|]. intros Hs. simpl.
  destruct (N.eqb_spec c TAB) as [->|Hc]; [destruct Hs; left|].
  rewrite IH; [done|]. intros ?. apply Hs. by right.
Qed.

Lemma split_tab_with (s : str) :
  TAB ∈ s → ∃ doc_id content, split_tab s = [doc_id; content].
Proof.
  induction s as [|c r IH]; [by intros ?%elem_of_nil|]. intros Hs. simpl.
  destruct (N.eqb_spec c TAB) as [->|Hc]; [by eauto|].
  apply elem_of_cons in Hs as [?|Hs]; [congruence|].
  destruct (IH Hs) as (a & b & ->). by eauto.
Qed.

Lemma ascii_lower_tab (s : str) : TAB ∈ ascii_lower <$> s ↔ TAB ∈ s.
Proof.
  assert (H : ∀ c, ascii_lower c = TAB ↔ c = TAB).
  { intros c. unfold ascii_lower, TAB.
    destruct (N.leb_spec 65 c), (N.leb_spec c 90); cbn [andb]; lia. }
  rewrite list_elem_of_fmap. split.
  - intros (c & Hc & ?). symmetry in Hc. apply (proj1 (H c)) in Hc. by subst.
  - intros ?. exists TAB. split; [|done]. symmetry. by apply (H TAB).
Qed.

Section CorpusFacts.

Variable uni_lower : str → str.
Variable uni_int : str → option Z.

#[local] Abbreviation parse := (parse_line uni_lower uni_int).
#[local] Abbreviation loop := (load_lines uni_lower uni_int).

Lemma parse_line_raise line e : parse line = Raise e → e = ValueError.
Proof.
  unfold parse_line.
  destruct (split_tab _) as [|a [|b [|c l]]]; try congruence.
  destruct (py_int _ _); congruence.
Qed.

Lemma parse_line_without_tab line :
  (∀ s : str, TAB ∈ uni_lower s ↔ TAB ∈ s) →
  TAB ∉ line → parse line = Raise ValueError.
Proof.
  intros Hlower Hline. unfold parse_line. rewrite split_tab_without; [done|].
  unfold str_lower. destruct (forallb is_ascii line).
  - by rewrite ascii_lower_tab.
  - by rewrite Hlower.
Qed.

Lemma load_lines_raise documents lines line :
  line ∈ lines → parse line = Raise ValueError →
  loop documents lines = Raise ValueError.
Proof.
  intros Hin Hline. revert documents.
  induction lines as [|l lines IH]; intros documents; [by apply elem_of_nil in Hin|].
  simpl. destruct (parse l) as [[k content]|e] eqn:El; simpl.
  - apply IH. apply elem_of_cons in Hin as [->|?]; [congruence|done].
  - by apply parse_line_raise in El as ->.
Qed.

Lemma load_lines_app documents lines1 lines2 :
  loop documents (lines1 ++ lines2)
  = (loop documents lines1 ≫= λ documents', loop documents' lines2).
Proof.
  revert documents. induction lines1 as [|l lines1 IH]; intros documents; [done|].
  simpl. destruct (parse l) as [[k content]|e]; simpl; [apply IH|done].
Qed.

(** Lines that all parse load without error, and a key that none of them
    carries keeps its binding. *)
Lemma load_lines_ok documents lines :
  Forall (λ line, ∃ item, parse line = Ok item) lines →
  ∃ documents',
    loop documents lines = Ok documents'
    ∧ ∀ k, Forall (λ line, ∀ content, parse line ≠ Ok (k, content)) lines →
           documents' !! k = documents !! k.
Proof.
  intros Hall. revert documents.
  induction Hall as [|l lines [[k content] Hl] _ IH]; intros documents.
  { by exists documents. }
  simpl. rewrite Hl. simpl.
  destruct (IH (<[k := content]> documents)) as (documents' & -> & Hkeep).
  exists documents'. split; [done|]. intros k' Hk'.
  inversion Hk' as [|? ? Hl' Hrest]; subst. rewrite Hkeep by done.
  apply lookup_insert_ne. intros ->. by apply (Hl' content).
Qed.

End CorpusFacts.

(** C6.  Malformed corpus line.  When some line of the corpus has no tab, or
    has an id field (the part of the lowered line before its first tab) that
    [int] rejects, [load_documents] raises [ValueError]: no mapping is
    returned, whatever the other lines are.  [str.lower] neither adds nor
    removes a tab. *)
Theorem load_documents_malformed (uni_lower : str → str) (uni_int : str → option Z)
    (handler : str) (fs : gmap str str) (text line : str) :
  (∀ s : str, TAB ∈ uni_lower s ↔ TAB ∈ s) →
  fs !! handler = Some text →
  line ∈ readlines text →
  (TAB ∉ line
   ∨ ∃ doc_id content,
       split_tab (str_lower uni_lower line) = [doc_id; content]
       ∧ py_int uni_int doc_id = None) →
  load_documents uni_lower uni_int handler fs = Raise ValueError.
Proof.
  intros Hlower Hfs Hin Hbad. unfold load_documents. rewrite Hfs.
  apply load_lines_raise with line; [done|].
  destruct Hbad as [Hno|(doc_id & content & Hsplit & Hint)].
  - by apply parse_line_without_tab.
  - unfold parse_line. by rewrite Hsplit, Hint.
Qed.

Definition corpus_with_bad_line : str :=
  u "0" ++ [TAB] ++ u "the cat sat" ++ [LF] ++ u "broken line" ++ [LF]
  ++ u "1" ++ [TAB] ++ u "the dog ran" ++ [LF].

Lemma load_documents_malformed_witness :
  (u "broken line" ++ [LF] ∈ readlines corpus_with_bad_line)
  ∧ (TAB ∉ u "broken line" ++ [LF])
  ∧ load_documents no_uni_lower no_uni_int (u "corpus")
      {[ u "corpus" := corpus_with_bad_line ]}
    = Raise ValueError.
Proof.
  assert (Hin : u "broken line" ++ [LF] ∈ readlines corpus_with_bad_line).
  { apply (bool_decide_unpack _). vm_compute. exact I. }
  assert (Htab : TAB ∉ u "broken line" ++ [LF]).
  { apply (bool_decide_unpack _). vm_compute. exact I. }
  split; [exact Hin|]. split; [exact Htab|].
  apply (load_documents_malformed no_uni_lower no_uni_int (u "corpus")
           {[ u "corpus" := corpus_with_bad_line ]} corpus_with_bad_line
           (u "broken line" ++ [LF])).
  - done.
  - vm_compute. reflexivity.
  - exact Hin.
  - left. exact Htab.
Defined.

(** C9.  Duplicate corpus ids.  When every line of the corpus is well
    formed and two of them, [a] and later [b], carry the same id [k],
    [load_documents] raises nothing and binds [k] to the content of the last
    line that carries it.  The content of a line is the part of the lowered
    line after its first tab. *)
Theorem load_documents_duplicate_ids (uni_lower : str → str) (uni_int : str → option Z)
    (handler : str) (fs : gmap str str) (text : str)
    (before between after : list str) (a b : str) (k : Z) (content_a content_b : str) :
  fs !! handler = Some text →
  readlines text = before ++ a :: between ++ b :: after →
  Forall (λ line, ∃ item, parse_line uni_lower uni_int line = Ok item) (readlines text) →
  parse_line uni_lower uni_int a = Ok (k, content_a) →
  parse_line uni_lower uni_int b = Ok (k, content_b) →
  Forall (λ line, ∀ content, parse_line uni_lower uni_int line ≠ Ok (k, content)) after →
  ∃ documents,
    load_documents uni_lower uni_int handler fs = Ok documents
    ∧ documents !! k = Some content_b.
Proof.
  intros Hfs Hlines Hall Ha Hb Hafter. unfold load_documents. rewrite Hfs, Hlines.
  rewrite Hlines in Hall.
  replace (before ++ a :: between ++ b :: after)
    with ((before ++ a :: between) ++ b :: after) in *
    by (by rewrite <- app_assoc).
  apply Forall_app in Hall as [Hhead Htail].
  apply Forall_cons in Htail as [_ Htail].
  rewrite load_lines_app.
  destruct (load_lines_ok uni_lower uni_int ∅ _ Hhead) as (documents1 & -> & _).
  simpl. rewrite Hb. simpl.
  destruct (load_lines_ok uni_lower uni_int (<[k := content_b]> documents1) _ Htail)
    as (documents & -> & Hkeep).
  exists documents. split; [done|].
  rewrite Hkeep by done. apply lookup_insert_eq.
Qed.

Definition corpus_with_duplicate_id : str :=
  u "0" ++ [TAB] ++ u "First" ++ [LF] ++ u "1" ++ [TAB] ++ u "other" ++ [LF]
  ++ u "0" ++ [TAB] ++ u "Second" ++ [LF].

Lemma load_documents_duplicate_ids_witness :
  ∃ documents,
    load_documents no_uni_lower no_uni_int (u "corpus")
      {[ u "corpus" := corpus_with_duplicate_id ]} = Ok documents
    ∧ documents !! 0%Z = Some (u "second" ++ [LF]).
Proof.
  apply (load_documents_duplicate_ids no_uni_lower no_uni_int (u "corpus")
           {[ u "corpus" := corpus_with_duplicate_id ]} corpus_with_duplicate_id
           [] [u "1" ++ [TAB] ++ u "other" ++ [LF]] []
           (u "0" ++ [TAB] ++ u "First" ++ [LF])
           (u "0" ++ [TAB] ++ u "Second" ++ [LF])
           0%Z (u "first" ++ [LF])).
  - vm_compute. reflexivity.
  - vm_compute. reflexivity.
  - replace (readlines corpus_with_duplicate_id)
      with [u "0" ++ [TAB] ++ u "First" ++ [LF];
            u "1" ++ [TAB] ++ u "other" ++ [LF];
            u "0" ++ [TAB] ++ u "Second" ++ [LF]]
      by (vm_compute; reflexivity).
    repeat constructor; eexists; vm_compute; reflexivity.
  - vm_compute. reflexivity.
  - vm_compute. reflexivity.
  - constructor.
Defined.

(** ** json: decoding what the encoder wrote *)

(** A code point that is not a surrogate. *)
Definition scalar_value (c : N) : Prop :=
  c < 0xd800 ∨ (0xe000 ≤ c ∧ c < 0x110000).

Arguments decode_uXXXX : simpl never.

Lemma hex_val_digit k : k < 16 → hex_val (hex_digit k) = Some k.
Proof.
  intros Hk. destruct k as [|p]; [done|].
  do 4 (destruct p as [p|p|]; try (exfalso; lia); try done).
Qed.

Lemma hex4_value n :
  n < 65536 →
  ((n / 4096 mod 16 * 16 + n / 256 mod 16) * 16 + n / 16 mod 16) * 16 + n mod 16 = n.
Proof.
  intros Hn.
  pose proof (N.div_mod n 16 ltac:(lia)).
  pose proof (N.div_mod (n / 16) 16 ltac:(lia)).
  pose proof (N.div_mod (n / 16 / 16) 16 ltac:(lia)).
  rewrite !N.Div0.div_div in *.
  change (16 * 16) with 256 in *. change (256 * 16) with 4096 in *.
  assert (n / 4096 < 16) by (apply N.Div0.div_lt_upper_bound; lia).
  rewrite (N.mod_small (n / 4096)) by lia.
  lia.
Qed.

Lemma decode_hex4 n :
  n < 65536 →
  decode_uXXXX (hex_digit (n / 4096 mod 16)) (hex_digit (n / 256 mod 16))
               (hex_digit (n / 16 mod 16)) (hex_digit (n mod 16)) = Some n.
Proof.
  intros Hn. unfold decode_uXXXX.
  rewrite !hex_val_digit by (apply N.mod_lt; lia). simpl.
  by rewrite hex4_value.
Qed.

Lemma lor_shiftl_add a b k : b < 2 ^ k → N.lor (N.shiftl a k) b = a * 2 ^ k + b.
Proof.
  intros Hb.
  rewrite <- N.lxor_lor, <- N.add_nocarry_lxor, N.shiftl_mul_pow2; try done.
  all: apply N.bits_inj; intros i; rewrite N.land_spec, N.bits_0.
  all: destruct (N.lt_ge_cases i k).
  all: try (rewrite N.shiftl_spec_low by done; done).
  all: rewrite (N.testbit_eqb b), N.div_small; [by rewrite andb_false_r|].
  all: eapply N.lt_le_trans; [done|]; by apply N.pow_le_mono_r.
Qed.

(** The surrogate pair of a code point above the basic plane, and back. *)
Lemma surrogate_pair n :
  n < 0x100000 →
  let s1 := N.lor 0xd800 (N.land (N.shiftr n 10) 0x3ff) in
  let s2 := N.lor 0xdc00 (N.land n 0x3ff) in
  (0xd800 ≤ s1 ∧ s1 ≤ 0xdbff) ∧ (0xdc00 ≤ s2 ∧ s2 ≤ 0xdfff)
  ∧ N.lor (N.shiftl (s1 - 0xd800) 10) (s2 - 0xdc00) = n.
Proof.
  intros Hn s1 s2.
  assert (Hhi : N.land (N.shiftr n 10) 0x3ff = n / 1024).
  { change 0x3ff with (N.ones 10). rewrite N.land_ones, N.shiftr_div_pow2.
    change (2 ^ 10) with 1024. apply N.mod_small.
    apply N.Div0.div_lt_upper_bound. lia. }
  assert (Hlo : N.land n 0x3ff = n mod 1024).
  { change 0x3ff with (N.ones 10). by rewrite N.land_ones. }
  assert (n / 1024 < 1024) by (apply N.Div0.div_lt_upper_bound; lia).
  assert (n mod 1024 < 1024) by (apply N.mod_lt; lia).
  assert (Hs1 : s1 = 0xd800 + n / 1024).
  { unfold s1. rewrite Hhi. change 0xd800 with (N.shiftl 54 10).
    rewrite lor_shiftl_add by (change (2 ^ 10) with 1024; lia).
    by rewrite N.shiftl_mul_pow2. }
  assert (Hs2 : s2 = 0xdc00 + n mod 1024).
  { unfold s2. rewrite Hlo. change 0xdc00 with (N.shiftl 55 10).
    rewrite lor_shiftl_add by (change (2 ^ 10) with 1024; lia).
    by rewrite N.shiftl_mul_pow2. }
  rewrite Hs1, Hs2. split; [lia|]. split; [lia|].
  replace (0xd800 + n / 1024 - 0xd800) with (n / 1024) by lia.
  replace (0xdc00 + n mod 1024 - 0xdc00) with (n mod 1024) by lia.
  rewrite lor_shiftl_add by (change (2 ^ 10) with 1024; lia).
  change (2 ^ 10) with 1024. pose proof (N.div_mod n 1024 ltac:(lia)). lia.
Qed.

Lemma scanstring_uXXXX h1 h2 h3 h4 rest uni :
  decode_uXXXX h1 h2 h3 h4 = Some uni →
  (0xd800 <=? uni) && (uni <=? 0xdbff) = false →
  scanstring (92 :: 117 :: h1 :: h2 :: h3 :: h4 :: rest)
  = push_char uni (scanstring rest).
Proof. intros H1 H2. simpl. by rewrite H1, H2. Qed.

Lemma scanstring_pair h1 h2 h3 h4 k1 k2 k3 k4 rest uni uni2 :
  decode_uXXXX h1 h2 h3 h4 = Some uni →
  (0xd800 <=? uni) && (uni <=? 0xdbff) = true →
  decode_uXXXX k1 k2 k3 k4 = Some uni2 →
  (0xdc00 <=? uni2) && (uni2 <=? 0xdfff) = true →
  scanstring (92 :: 117 :: h1 :: h2 :: h3 :: h4
              :: 92 :: 117 :: k1 :: k2 :: k3 :: k4 :: rest)
  = push_char (0x10000 + N.lor (N.shiftl (uni - 0xd800) 10) (uni2 - 0xdc00))
      (scanstring rest).
Proof. intros H1 H2 H3 H4. simpl. by rewrite H1, H2, H3, H4. Qed.

(** One escaped character is read back as the character. *)
Lemma scanstring_escape_char c rest :
  scalar_value c →
  scanstring (escape_char c ++ rest) = push_char c (scanstring rest).
Proof.
  intros Hc. unfold escape_char.
  destruct (N.eqb_spec c 92) as [->|?]; [reflexivity|].
  destruct (N.eqb_spec c 34) as [->|?]; [reflexivity|].
  destruct (N.eqb_spec c 8) as [->|?]; [reflexivity|].
  destruct (N.eqb_spec c 12) as [->|?]; [reflexivity|].
  destruct (N.eqb_spec c 10) as [->|?]; [reflexivity|].
  destruct (N.eqb_spec c 13) as [->|?]; [reflexivity|].
  destruct (N.eqb_spec c 9) as [->|?]; [reflexivity|].
  assert (Hbmp : c < 65536 → ¬ (32 ≤ c ∧ c ≤ 126) →
    scanstring (u_escape c ++ rest) = push_char c (scanstring rest)).
  { intros ? ?. apply scanstring_uXXXX; [by apply decode_hex4|].
    apply andb_false_iff. destruct Hc as [?|[? ?]].
    - left. apply N.leb_gt. lia.
    - right. apply N.leb_gt. lia. }
  destruct (N.leb_spec 32 c); cbn [andb].
  - destruct (N.leb_spec c 126).
    + simpl. destruct (N.eqb_spec c 34); [done|].
      destruct (N.eqb_spec c 92); [done|].
      destruct (N.ltb_spec c 32); [lia|done].
    + destruct (N.ltb_spec c 65536); [apply Hbmp; lia|].
      destruct (surrogate_pair (c - 65536)) as ([? ?] & [? ?] & Heq).
      { destruct Hc as [?|[? ?]]; lia. }
      unfold u_escape, hex4. simpl app.
      erewrite scanstring_pair.
      * rewrite Heq. f_equal. lia.
      * apply decode_hex4. lia.
      * apply andb_true_iff. split; apply N.leb_le; lia.
      * apply decode_hex4. lia.
      * apply andb_true_iff. split; apply N.leb_le; lia.
  - destruct (N.ltb_spec c 65536); [apply Hbmp; lia|lia].
Qed.

Lemma scanstring_encoded (s rest : str) :
  Forall scalar_value s →
  scanstring ((s ≫= escape_char) ++ 34 :: rest) = Ok (s, rest).
Proof.
  induction 1 as [|c s Hc _ IH]; [done|].
  cbn [mbind list_bind]. rewrite <- app_assoc, scanstring_escape_char by done.
  by rewrite IH.
Qed.

(** Numbers: the decimal digits of an integer are read back as it. *)

(** Replace the ASCII literals of the goal by their code points. *)
Ltac literals :=
  repeat match goal with
         | |- context [u ?s] =>
           let t := eval vm_compute in (u s) in change (u s) with t
         end.

Lemma uint_str_digits d : Forall (λ c, is_digit c = true) (uint_str d).
Proof. induction d; simpl; by constructor. Qed.

Lemma digits_uint_str d : digits_uint (uint_str d) = d.
Proof. induction d; simpl; by f_equal. Qed.

(** The text does not go on with what [NUMBER_RE] could still take. *)
Definition number_end (rest : str) : Prop :=
  ∃ c r, rest = c :: r ∧ (c = 44 ∨ c = 93).

Lemma span_digits_app (ds rest : str) :
  Forall (λ c, is_digit c = true) ds → number_end rest →
  span_digits (ds ++ rest) = (ds, rest).
Proof.
  intros Hds (c & r & -> & Hc). induction Hds as [|d ds Hd _ IH]; simpl.
  - by destruct Hc as [-> | ->].
  - by rewrite Hd, IH.
Qed.

Lemma unorm_head d :
  unorm d = Decimal.zero
  ∨ ∃ c ds, uint_str (unorm d) = c :: ds ∧ is_digit c = true ∧ c ≠ 48.
Proof.
  induction d; simpl; try (right; eexists _, _; by split); by auto.
Qed.

Lemma pos_repr_head p :
  ∃ c ds, uint_str (Pos.to_uint p) = c :: ds ∧ is_digit c = true ∧ c ≠ 48.
Proof.
  pose proof (DecimalPos.Unsigned.to_of (Pos.to_uint p)) as H.
  rewrite DecimalPos.Unsigned.of_to in H. simpl in H.
  destruct (unorm_head (Pos.to_uint p)) as [H0|H0].
  - rewrite H0 in H. by apply DecimalPos.Unsigned.to_uint_nonzero in H.
  - by rewrite <- H in H0.
Qed.

Lemma int_repr_head z :
  ∃ c ds, int_repr z = c :: ds ∧ (is_digit c = true ∨ c = 45).
Proof.
  destruct z as [|p|p]; simpl.
  - eexists _, _. split; [done|]. by left.
  - destruct (pos_repr_head p) as (c & ds & -> & ? & _). eauto.
  - eauto.
Qed.

Lemma parse_int_pos p : N.of_uint (digits_uint (uint_str (Pos.to_uint p))) = N.pos p.
Proof. rewrite digits_uint_str. apply DecimalPos.Unsigned.of_to. Qed.

Lemma parse_int_repr z : parse_int (int_repr z) = z.
Proof.
  destruct z as [|p|p]; [done| |].
  - unfold int_repr. pose proof (parse_int_pos p) as H.
    destruct (pos_repr_head p) as (c & ds & E & Hc & _). rewrite E in *.
    unfold parse_int. destruct (N.eqb_spec c 45) as [->|_]; [done|].
    by rewrite H.
  - unfold int_repr, parse_int. simpl (45 =? 45). by rewrite parse_int_pos.
Qed.

Lemma match_integer_digits (ds rest : str) p :
  ds = uint_str (Pos.to_uint p) → number_end rest →
  match_integer (ds ++ rest) = Some (ds, rest)
  ∧ match_integer (45 :: ds ++ rest) = Some (45 :: ds, rest).
Proof.
  intros -> Hrest.
  destruct (pos_repr_head p) as (c & ds & E & Hc & Hnz).
  pose proof (uint_str_digits (Pos.to_uint p)) as Hds. rewrite E in *.
  inversion Hds as [|? ? _ Hds']; subst.
  assert (H45 : (c =? 45) = false).
  { apply N.eqb_neq. intros ->. done. }
  assert (H48 : (c =? 48) = false) by by apply N.eqb_neq.
  unfold match_integer. simpl. rewrite H45, H48, Hc.
  by rewrite span_digits_app.
Qed.

Lemma match_integer_repr z rest :
  number_end rest → match_integer (int_repr z ++ rest) = Some (int_repr z, rest).
Proof.
  intros Hrest. destruct z as [|p|p].
  - done.
  - by apply (match_integer_digits _ _ p).
  - by apply (match_integer_digits _ _ p).
Qed.

Lemma scan_number_repr z rest :
  number_end rest → scan_number (int_repr z ++ rest) = Some (JInt z, rest).
Proof.
  intros Hrest. unfold scan_number. rewrite match_integer_repr by done. simpl.
  destruct Hrest as (c & r & -> & [-> | ->]); simpl; by rewrite parse_int_repr.
Qed.

Lemma scan_scalar_repr z rest :
  number_end rest → scan_scalar (int_repr z ++ rest) = Ok (JInt z, rest).
Proof.
  intros Hrest. unfold scan_scalar.
  destruct (int_repr_head z) as (c & ds & E & Hc).
  assert (Hlit : ∀ a p, is_digit a = false → a ≠ 45 →
            strip_prefix (a :: p) (int_repr z ++ rest) = None).
  { intros a p Ha Ha'. rewrite E. simpl.
    destruct (N.eqb_spec a c) as [->|]; [|done].
    destruct Hc; congruence. }
  literals. rewrite !Hlit by done. by rewrite scan_number_repr.
Qed.

Lemma scan_once_repr n z rest :
  number_end rest →
  scan_once (S n) (int_repr z ++ rest) = Some (Ok (JInt z, rest)).
Proof.
  intros Hrest. pose proof (scan_scalar_repr z rest Hrest) as H.
  destruct (int_repr_head z) as (c & ds & E & Hc). rewrite E in *.
  simpl app in *. cbn [scan_once].
  assert ((c =? 34) = false ∧ (c =? 123) = false ∧ (c =? 91) = false)
    as (-> & -> & ->).
  { repeat split; apply N.eqb_neq; intros ->; by destruct Hc. }
  by rewrite H.
Qed.

(** ** json: the decoder is total

    Every successful scan consumes text, so the bound on the calls that
    [json_loads] starts from is never reached; and a larger bound gives the
    same answer. *)

Lemma skip_ws_length (s : str) : (length (skip_ws s) ≤ length s)%nat.
Proof. induction s as [|c r IH]; simpl; [done|]. destruct (is_ws c); simpl; lia. Qed.

Lemma push_char_ok c r chars rest :
  push_char c r = Ok (chars, rest) →
  ∃ chars', r = Ok (chars', rest) ∧ chars = c :: chars'.
Proof. destruct r as [[chars' rest']|e]; simpl; [|done]. intros [= <- <-]. eauto. Qed.

Lemma scanstring_length_bounded (n : nat) (s chars rest : str) :
  (length s ≤ n)%nat → scanstring s = Ok (chars, rest) →
  (length rest < length s)%nat.
Proof.
  revert s chars rest. induction n as [|n IH]; intros s chars rest Hn H.
  { destruct s; [done|simpl in Hn; lia]. }
  destruct s as [|c r]; [done|]. simpl in H.
  repeat (case_match; try done; subst);
    try (injection H as <- <-; simpl; lia);
    apply push_char_ok in H as (chars' & H & ->);
    apply IH in H; simpl in *; lia.
Qed.

Lemma scanstring_length (s chars rest : str) :
  scanstring s = Ok (chars, rest) → (length rest < length s)%nat.
Proof. by apply scanstring_length_bounded with (length s). Qed.

Lemma span_digits_length (s ds rest : str) :
  span_digits s = (ds, rest) → (length rest ≤ length s)%nat.
Proof.
  revert ds rest. induction s as [|c r IH]; intros ds rest; simpl.
  { by intros [= <- <-]. }
  destruct (is_digit c); [|intros [= <- <-]; simpl; lia].
  destruct (span_digits r) as [ds' rest'] eqn:E. intros [= <- <-].
  specialize (IH _ _ eq_refl). lia.
Qed.

Lemma strip_prefix_length (p s rest : str) :
  strip_prefix p s = Some rest → length s = (length p + length rest)%nat.
Proof.
  revert s. induction p as [|a p IH]; intros s; simpl; [by intros [= ->]|].
  destruct s as [|b s]; [done|]. destruct (a =? b); [|done].
  intros ?%IH. simpl. lia.
Qed.

Lemma match_integer_length (s integer rest : str) :
  match_integer s = Some (integer, rest) → (length rest < length s)%nat.
Proof.
  unfold match_integer. intros H.
  repeat (case_match; try done; subst); simplify_eq;
    repeat match goal with
           | H : span_digits _ = _ |- _ => apply span_digits_length in H
           end; simpl in *; lia.
Qed.

Lemma match_frac_length (s frac rest : str) :
  match_frac s = (frac, rest) → (length rest ≤ length s)%nat.
Proof.
  unfold match_frac. intros H.
  repeat (case_match; try done; subst); simplify_eq;
    repeat match goal with
           | H : span_digits _ = _ |- _ => apply span_digits_length in H
           end; simpl in *; lia.
Qed.

Lemma match_exp_length (s exp rest : str) :
  match_exp s = (exp, rest) → (length rest ≤ length s)%nat.
Proof.
  unfold match_exp. intros H.
  repeat (case_match; try done; subst); simplify_eq;
    repeat match goal with
           | H : span_digits _ = _ |- _ => apply span_digits_length in H
           end; simpl in *; lia.
Qed.

Lemma scan_number_length (s rest : str) v :
  scan_number s = Some (v, rest) → (length rest < length s)%nat.
Proof.
  unfold scan_number. intros H.
  destruct (match_integer s) as [[integer s1]|] eqn:E1; [|done]. simpl in H.
  destruct (match_frac s1) as [frac s2] eqn:E2.
  destruct (match_exp s2) as [exp s3] eqn:E3.
  apply match_integer_length in E1. apply match_frac_length in E2.
  apply match_exp_length in E3.
  assert (rest = s3) as -> by (repeat case_match; by simplify_eq).
  lia.
Qed.

Lemma scan_scalar_length (s rest : str) v :
  scan_scalar s = Ok (v, rest) → (length rest < length s)%nat.
Proof.
  unfold scan_scalar. literals. intros H.
  repeat (case_match; try done); simplify_eq;
    repeat match goal with
           | H : strip_prefix _ _ = _ |- _ => apply strip_prefix_length in H
           | H : scan_number _ = _ |- _ => apply scan_number_length in H
           end; simpl in *; lia.
Qed.

Lemma scan_length (n : nat) :
  (∀ (s : str) v rest, scan_once n s = Some (Ok (v, rest)) →
     (length rest < length s)%nat)
  ∧ (∀ (s : str) values v rest, array_items n s values = Some (Ok (v, rest)) →
     (length rest < length s)%nat)
  ∧ (∀ (s : str) pairs v rest, object_items n s pairs = Some (Ok (v, rest)) →
     (length rest < length s)%nat).
Proof.
  induction n as [|n (IHscan & IHarr & IHobj)]; [done|].
  split; [|split].
  - intros s v rest H. destruct s as [|c r]; [done|]. cbn [scan_once] in H.
    destruct (c =? 34).
    { destruct (scanstring r) as [[chars rest']|e] eqn:E; [|done].
      apply scanstring_length in E. simpl in H. simplify_eq. simpl. lia. }
    destruct (c =? 123).
    { pose proof (skip_ws_length r).
      destruct (skip_ws r) as [|q r'] eqn:E; [done|].
      destruct (q =? 125); [simplify_eq; simpl in *; lia|].
      destruct (q =? 34); [|done].
      apply IHobj in H. simpl in *. lia. }
    destruct (c =? 91).
    { pose proof (skip_ws_length r).
      destruct (skip_ws r) as [|q r'] eqn:E.
      - apply IHarr in H. simpl in *. lia.
      - destruct (q =? 93); [simplify_eq; simpl in *; lia|].
        apply IHarr in H. simpl in *. lia. }
    injection H as H. by apply scan_scalar_length in H.
  - intros s values v rest H. cbn [array_items] in H.
    destruct (scan_once n s) as [[[value rest']|e]|] eqn:E; [|done|done].
    apply IHscan in E. pose proof (skip_ws_length rest').
    destruct (skip_ws rest') as [|c r] eqn:E'; [done|].
    destruct (c =? 93); [simplify_eq; simpl in *; lia|].
    destruct (c =? 44); [|done].
    apply IHarr in H. pose proof (skip_ws_length r). simpl in *. lia.
  - intros s pairs v rest H. cbn [object_items] in H.
    destruct (scanstring s) as [[key rest1]|e] eqn:E1; [|done].
    apply scanstring_length in E1. pose proof (skip_ws_length rest1).
    destruct (skip_ws rest1) as [|c r] eqn:E2; [done|].
    destruct (c =? 58); [|done].
    destruct (scan_once n (skip_ws r)) as [[[value rest2]|e]|] eqn:E3; [|done|done].
    apply IHscan in E3. pose proof (skip_ws_length r).
    pose proof (skip_ws_length rest2).
    destruct (skip_ws rest2) as [|c' r'] eqn:E4; [done|].
    destruct (c' =? 125); [simplify_eq; simpl in *; lia|].
    destruct (c' =? 44); [|done].
    pose proof (skip_ws_length r').
    destruct (skip_ws r') as [|q r''] eqn:E5; [done|].
    destruct (q =? 34); [|done].
    apply IHobj in H. simpl in *. lia.
Qed.

(** The bound [json_loads] starts from is enough. *)
Lemma scan_total (n : nat) :
  (∀ s : str, (2 * length s + 1 ≤ n)%nat → scan_once n s ≠ None)
  ∧ (∀ (s : str) values, (2 * length s + 2 ≤ n)%nat →
       array_items n s values ≠ None)
  ∧ (∀ (s : str) pairs, (2 * length s + 2 ≤ n)%nat →
       object_items n s pairs ≠ None).
Proof.
  induction n as [|n (IHscan & IHarr & IHobj)].
  { repeat split; intros; lia. }
  destruct (scan_length n) as (Lscan & _ & _).
  split; [|split].
  - intros s Hn. destruct s as [|c r]; [done|]. cbn [scan_once].
    simpl in Hn. pose proof (skip_ws_length r).
    destruct (c =? 34); [done|].
    destruct (c =? 123).
    { destruct (skip_ws r) as [|q r'] eqn:E; [done|].
      destruct (q =? 125); [done|]. destruct (q =? 34); [|done].
      apply IHobj. simpl in *. lia. }
    destruct (c =? 91); [|done].
    destruct (skip_ws r) as [|q r'] eqn:E.
    + apply IHarr. simpl. lia.
    + destruct (q =? 93); [done|]. apply IHarr. simpl in *. lia.
  - intros s values Hn. cbn [array_items].
    destruct (scan_once n s) as [[[value rest']|e]|] eqn:E;
      [|done|by apply IHscan in E; [|lia]].
    apply Lscan in E. pose proof (skip_ws_length rest').
    destruct (skip_ws rest') as [|c r] eqn:E'; [done|].
    destruct (c =? 93); [done|]. destruct (c =? 44); [|done].
    apply IHarr. pose proof (skip_ws_length r). simpl in *. lia.
  - intros s pairs Hn. cbn [object_items].
    destruct (scanstring s) as [[key rest1]|e] eqn:E1; [|done].
    apply scanstring_length in E1. pose proof (skip_ws_length rest1).
    destruct (skip_ws rest1) as [|c r] eqn:E2; [done|].
    destruct (c =? 58); [|done]. pose proof (skip_ws_length r).
    destruct (scan_once n (skip_ws r)) as [[[value rest2]|e]|] eqn:E3;
      [|done|by apply IHscan in E3; [|simpl in *; lia]].
    apply Lscan in E3. pose proof (skip_ws_length rest2).
    destruct (skip_ws rest2) as [|c' r'] eqn:E4; [done|].
    destruct (c' =? 125); [done|]. destruct (c' =? 44); [|done].
    pose proof (skip_ws_length r').
    destruct (skip_ws r') as [|q r''] eqn:E5; [done|].
    destruct (q =? 34); [|done].
    apply IHobj. simpl in *. lia.
Qed.

(** More calls allowed, same answer. *)
Lemma scan_mono (n : nat) :
  ∀ m, (n ≤ m)%nat →
  (∀ (s : str) res, scan_once n s = Some res → scan_once m s = Some res)
  ∧ (∀ (s : str) values res,
       array_items n s values = Some res → array_items m s values = Some res)
  ∧ (∀ (s : str) pairs res,
       object_items n s pairs = Some res → object_items m s pairs = Some res).
Proof.
  induction n as [|n IH]; intros m Hm; [done|].
  destruct m as [|m]; [lia|].
  destruct (IH m ltac:(lia)) as (IHscan & IHarr & IHobj).
  split; [|split].
  - intros s res H. destruct s as [|c r]; [done|]. cbn [scan_once] in *.
    destruct (c =? 34); [done|].
    destruct (c =? 123).
    { destruct (skip_ws r) as [|q r']; [done|].
      destruct (q =? 125); [done|]. destruct (q =? 34); [|done]. by apply IHobj. }
    destruct (c =? 91); [|done].
    destruct (skip_ws r) as [|q r']; [by apply IHarr|].
    destruct (q =? 93); [done|]. by apply IHarr.
  - intros s values res H. cbn [array_items] in *.
    destruct (scan_once n s) as [[[value rest']|e]|] eqn:E; [| |done];
      rewrite (IHscan _ _ E); [|done].
    destruct (skip_ws rest') as [|c r]; [done|].
    destruct (c =? 93); [done|]. destruct (c =? 44); [|done]. by apply IHarr.
  - intros s pairs res H. cbn [object_items] in *.
    destruct (scanstring s) as [[key rest1]|e]; [|done].
    destruct (skip_ws rest1) as [|c r]; [done|].
    destruct (c =? 58); [|done].
    destruct (scan_once n (skip_ws r)) as [[[value rest2]|e]|] eqn:E; [| |done];
      rewrite (IHscan _ _ E); [|done].
    destruct (skip_ws rest2) as [|c' r']; [done|].
    destruct (c' =? 125); [done|]. destruct (c' =? 44); [|done].
    destruct (skip_ws r') as [|q r'']; [done|].
    destruct (q =? 34); [|done]. by apply IHobj.
Qed.

(** A scan that succeeds under some bound is the scan [json_loads] does. *)
Lemma scan_once_enough (n : nat) (text s : str) res :
  (length s ≤ length text)%nat →
  scan_once n s = Some res →
  scan_once (2 * length text + 1) s = Some res.
Proof.
  intros Hlen H.
  destruct (scan_once (2 * length text + 1) s) as [res'|] eqn:E.
  - destruct (scan_mono n (n + (2 * length text + 1)) ltac:(lia)) as (H1 & _).
    destruct (scan_mono (2 * length text + 1) (n + (2 * length text + 1))
                ltac:(lia)) as (H2 & _).
    apply H1 in H. apply H2 in E. congruence.
  - destruct (scan_total (2 * length text + 1)) as (Htotal & _).
    by apply Htotal in E; [|lia].
Qed.

(** ** json: decoding what the encoder wrote, continued *)

Definition to_json_ids (ids : list Z) : json := JArr (JInt <$> ids).

Definition to_json_pairs (items : list (str * list Z)) : list (str * json) :=
  (λ item, (item.1, to_json_ids item.2)) <$> items.

Lemma skip_ws_repr z (rest : str) :
  skip_ws (int_repr z ++ rest) = int_repr z ++ rest.
Proof.
  destruct (int_repr_head z) as (c & ds & -> & Hc). simpl.
  assert (is_ws c = false) as ->; [|done].
  unfold is_ws, is_digit in *.
  destruct Hc as [[?%N.leb_le ?%N.leb_le]%andb_true_iff| ->]; [|done].
  repeat (apply orb_false_iff; split); apply N.eqb_neq; lia.
Qed.

Lemma number_end_items {A} (enc : A → str) (items : list A) c (rest : str) :
  c = 44 ∨ c = 93 →
  number_end (encode_items enc false items ++ c :: rest).
Proof.
  intros Hc. destruct items as [|x items]; simpl.
  - by exists c, rest.
  - eexists 44, _. by split; [|left].
Qed.

Lemma array_items_encoded (n : nat) (ids : list Z) z (rest : str) values :
  (length ids + 2 ≤ n)%nat →
  array_items n (int_repr z ++ encode_items int_repr false ids ++ 93 :: rest) values
  = Some (Ok (JArr (values ++ (JInt <$> z :: ids)), rest)).
Proof.
  revert n z values. induction ids as [|z' ids IH]; intros n z values Hn.
  - destruct n as [|n]; [simpl in Hn; lia|]. cbn [array_items].
    destruct n as [|n]; [simpl in Hn; lia|].
    rewrite scan_once_repr by (apply (number_end_items int_repr []); by right).
    done.
  - destruct n as [|n]; [simpl in Hn; lia|]. cbn [array_items].
    destruct n as [|n]; [simpl in Hn; lia|].
    rewrite scan_once_repr by (apply number_end_items; by right).
    cbn [encode_items app skip_ws is_ws N.eqb Pos.eqb orb].
    rewrite <- app_assoc, skip_ws_repr, IH by (simpl in Hn; lia).
    by rewrite <- app_assoc.
Qed.

Lemma scan_once_list (n : nat) (ids : list Z) (rest : str) :
  (length ids + 2 ≤ n)%nat →
  scan_once n (encode_list ids ++ rest) = Some (Ok (to_json_ids ids, rest)).
Proof.
  intros Hn. destruct n as [|n]; [lia|]. destruct ids as [|z ids]; [done|].
  unfold encode_list. cbn [encode_items app]. rewrite <- !app_assoc.
  cbn [scan_once N.eqb Pos.eqb]. rewrite skip_ws_repr.
  destruct (int_repr_head z) as (c & ds & E & Hc).
  rewrite E at 1. simpl app. cbv iota.
  assert ((c =? 93) = false) as ->.
  { apply N.eqb_neq. intros ->. by destruct Hc. }
  simpl app. rewrite (array_items_encoded n ids z rest []) by (simpl in Hn; lia).
  done.
Qed.

Lemma encode_pair_app (item : str * list Z) (tail : str) :
  encode_pair item ++ tail
  = 34 :: (item.1 ≫= escape_char) ++ 34 :: 58 :: 32 :: encode_list item.2 ++ tail.
Proof.
  unfold encode_pair, encode_basestring_ascii. simpl.
  by rewrite <- !app_assoc.
Qed.

Lemma skip_ws_list (ids : list Z) (tail : str) :
  skip_ws (encode_list ids ++ tail) = encode_list ids ++ tail.
Proof. by destruct ids. Qed.

(** [bound] is at least the longest id list. *)
Lemma object_items_encoded (n bound : nat) (items : list (str * list Z))
    (key : str) (ids : list Z) (rest : str) pairs :
  Forall (λ item, Forall scalar_value item.1 ∧ (length item.2 ≤ bound)%nat)
         ((key, ids) :: items) →
  (length items + bound + 4 ≤ n)%nat →
  object_items n
    ((key ≫= escape_char) ++ 34 :: 58 :: 32 :: encode_list ids
       ++ encode_items encode_pair false items ++ 125 :: rest) pairs
  = Some (Ok (JObj (dict (pairs ++ to_json_pairs ((key, ids) :: items))), rest)).
Proof.
  revert n key ids pairs.
  induction items as [|[key' ids'] items IH]; intros n key ids pairs Hall Hn.
  - apply Forall_cons in Hall as [[Hkey Hids] _]. simpl in Hkey, Hids.
    destruct n as [|n]; [simpl in Hn; lia|]. cbn [object_items].
    rewrite scanstring_encoded by done.
    cbn [skip_ws is_ws N.eqb Pos.eqb orb]. rewrite skip_ws_list.
    rewrite scan_once_list by (simpl in Hn; lia). done.
  - apply Forall_cons in Hall as [[Hkey Hids] Hall]. simpl in Hkey, Hids.
    destruct n as [|n]; [simpl in Hn; lia|]. cbn [object_items].
    rewrite scanstring_encoded by done.
    cbn [skip_ws is_ws N.eqb Pos.eqb orb]. rewrite skip_ws_list.
    rewrite scan_once_list by (simpl in Hn; lia).
    cbn [encode_items app]. rewrite <- app_assoc, encode_pair_app.
    cbn [skip_ws is_ws N.eqb Pos.eqb orb fst snd].
    rewrite IH by (done || simpl in Hn; lia).
    unfold to_json_pairs. cbn [fmap list_fmap fst snd].
    by rewrite <- app_assoc.
Qed.

Lemma scan_once_dict (n bound : nat) (dct : gmap str (list Z)) (rest : str) :
  map_Forall (λ key ids, Forall scalar_value key ∧ (length ids ≤ bound)%nat) dct →
  (size dct + bound + 4 ≤ n)%nat →
  scan_once n (encode_dict dct ++ rest)
  = Some (Ok (JObj (dict (to_json_pairs (map_to_list dct))), rest)).
Proof.
  intros Hall Hn. destruct n as [|n]; [lia|].
  apply map_Forall_to_list in Hall. rewrite <- length_map_to_list in Hn.
  unfold encode_dict.
  destruct (map_to_list dct) as [|[key ids] items] eqn:E; [done|].
  cbn [encode_items app]. rewrite <- !app_assoc, encode_pair_app.
  cbn [scan_once skip_ws is_ws N.eqb Pos.eqb orb fst snd].
  change ([125] ++ rest) with (125 :: rest).
  rewrite (object_items_encoded n bound items key ids rest []).
  - done.
  - eapply Forall_impl; [exact Hall|]. by intros [k v].
  - simpl in Hn. lia.
Qed.

Lemma dict_lookup {A} (pairs : list (str * A)) key value :
  NoDup pairs.*1 → dict pairs !! key = Some value ↔ (key, value) ∈ pairs.
Proof.
  unfold dict. induction pairs as [|[k v] pairs IH] using rev_ind; intros Hdup.
  { simpl. rewrite lookup_empty, elem_of_nil. naive_solver. }
  rewrite fmap_app in Hdup. apply NoDup_app in Hdup as (Hdup & Hk & _).
  rewrite foldl_app. simpl. rewrite elem_of_app, list_elem_of_singleton.
  destruct (decide (k = key)) as [->|Hne].
  - rewrite lookup_insert_eq. split; [intros [= ->]; by right|].
    intros [Hin|[= ->]]; [|done]. exfalso. apply (Hk key).
    + apply list_elem_of_fmap. by exists (key, value).
    + simpl. left.
  - rewrite lookup_insert_ne, IH by done. naive_solver.
Qed.

Lemma dict_to_json (dct : gmap str (list Z)) :
  dict (to_json_pairs (map_to_list dct)) = to_json_ids <$> dct.
Proof.
  apply map_eq. intros key. apply option_eq. intros value.
  rewrite dict_lookup.
  - unfold to_json_pairs. rewrite list_elem_of_fmap, lookup_fmap, fmap_Some.
    split.
    + intros ([k ids] & [= -> ->] & Hin%elem_of_map_to_list). eauto.
    + intros (ids & Hin%elem_of_map_to_list & ->). by exists (key, ids).
  - unfold to_json_pairs. rewrite <- list_fmap_compose.
    apply NoDup_fst_map_to_list.
Qed.

(** What [json.dump] wrote for a mapping with keys free of surrogates is
    read back by [json.loads] as that mapping. *)
Lemma json_loads_dumps (obj : gmap str (list Z)) :
  map_Forall (λ key _, Forall scalar_value key) obj →
  json_loads (json_dumps obj) = Ok (JObj (to_json_ids <$> obj)).
Proof.
  intros Hkeys. unfold json_loads, json_dumps.
  assert (Hws : skip_ws (encode_dict obj) = encode_dict obj).
  { unfold encode_dict. by destruct (map_to_list obj). }
  rewrite Hws.
  set (bound := foldr (λ item, max (length item.2)) 0%nat (map_to_list obj)).
  assert (Hscan : scan_once (size obj + bound + 4) (encode_dict obj ++ [])
                  = Some (Ok (JObj (to_json_ids <$> obj), []))).
  { rewrite <- dict_to_json. apply scan_once_dict with bound; [|done].
    intros key ids Hin. split; [by apply (Hkeys key ids)|].
    apply elem_of_map_to_list in Hin. unfold bound.
    induction (map_to_list obj) as [|item items IH]; [by apply elem_of_nil in Hin|].
    apply elem_of_cons in Hin as [<-|Hin]; simpl; [lia|].
    specialize (IH Hin). lia. }
  rewrite app_nil_r in Hscan.
  by rewrite (scan_once_enough _ _ _ _ (reflexivity _) Hscan).
Qed.

Lemma as_ids_to_json (ids : list Z) : as_ids (to_json_ids ids) = Some ids.
Proof.
  unfold as_ids, to_json_ids. apply mapM_Some.
  induction ids as [|z ids IH]; by constructor.
Qed.

Lemma as_index_to_json (obj : gmap str (list Z)) :
  as_index (JObj (to_json_ids <$> obj)) = Some obj.
Proof.
  unfold as_index. rewrite decide_True.
  - f_equal. apply map_eq. intros key.
    rewrite lookup_omap, lookup_fmap.
    destruct (obj !! key) as [ids|]; [|done]. simpl. apply as_ids_to_json.
  - intros key v. rewrite lookup_fmap, fmap_Some.
    intros (ids & _ & ->). rewrite as_ids_to_json. by eexists.
Qed.

(** [load] after [dump]: the instance that comes back holds the mapping that
    went out. *)
Lemma load_dump (self : Index) (handler : str) (fs : gmap str str) :
  map_Forall (λ key _, Forall scalar_value key) (inverted_index self) →
  ∃ loaded,
    load handler (dump self handler fs) = Ok loaded ∧ typed loaded = Some self.
Proof.
  intros Hkeys. unfold load, dump. rewrite lookup_insert_eq.
  rewrite json_loads_dumps by done.
  exists {| inverted_index := JObj (to_json_ids <$> inverted_index self) |}.
  split; [done|].
  unfold typed. cbn [inverted_index]. rewrite as_index_to_json. by destruct self.
Qed.



Lemma build_keys_scalar (uni_word : N → bool)
    (documents : gmap Z str) (stopwords : gset str) :
  (∀ c, uni_word c = true → scalar_value c) →
  map_Forall (λ key _, Forall scalar_value key)
    (inverted_index (build_inverted_index uni_word documents stopwords)).
Proof.
  intros Huni key ids Hkey.
  assert (is_Some (inverted_index
            (build_inverted_index uni_word documents stopwords) !! key))
    as (d & content & _ & Htoken & _)%build_key by eauto.
  apply re_split_word_chars in Htoken.
  eapply Forall_impl; [exact Htoken|]. intros c. unfold is_word, is_ascii.
  destruct (N.ltb_spec c 128); [|by apply Huni].
  intros _. left. lia.
Qed.

Lemma build_nonempty (uni_word : N → bool)
    (documents : gmap Z str) (stopwords : gset str) (t : str) (ids : list Z) :
  inverted_index (build_inverted_index uni_word documents stopwords) !! t = Some ids →
  ids ≠ [].
Proof.
  rewrite build_lookup, fmap_Some. intros (doc_ids & Hin & ->).
  apply (build_loop_nonempty uni_word stopwords (map_to_list documents) ∅) in Hin;
    [|apply map_Forall_empty].
  by intros ?%elements_empty_inv%leibniz_equiv.
Qed.

(** [str.isalnum] on the Latin-1 supplement, and nothing above it: a table
    for texts in that range. *)
Definition latin1_word (c : N) : bool :=
  (c =? 170) || (c =? 178) || (c =? 179) || (c =? 181) || (c =? 185) || (c =? 186)
  || ((188 <=? c) && (c <=? 190)) || ((192 <=? c) && (c <=? 214))
  || ((216 <=? c) && (c <=? 246)) || ((248 <=? c) && (c <=? 255)).

Lemma latin1_word_scalar c : latin1_word c = true → scalar_value c.
Proof.
  unfold latin1_word, scalar_value. intros H. left.
  repeat match type of H with
         | _ || _ = true => apply orb_true_iff in H as [H|H]
         | _ && _ = true => apply andb_true_iff in H as [_ H]
         end;
    repeat match goal with
           | H : (_ =? _) = true |- _ => apply N.eqb_eq in H
           | H : (_ <=? _) = true |- _ => apply N.leb_le in H
           end; lia.
Qed.

(** C5.  Round trip.  Whatever the documents and the stopwords, loading what
    [dump] wrote for the built index succeeds, the instance that comes back
    has the declared shape, and every query returns on it the set of ids it
    returns on the built index.  No word character is a surrogate. *)
Theorem dump_load_round_trip (uni_word : N → bool)
    (documents : gmap Z str) (stopwords : gset str)
    (handler : str) (fs : gmap str str) :
  (∀ c, uni_word c = true → scalar_value c) →
  ∃ loaded self',
    load handler
      (dump (build_inverted_index uni_word documents stopwords) handler fs)
    = Ok loaded
    ∧ typed loaded = Some self'
    ∧ ∀ words,
        list_to_set (query self' words)
        =@{gset Z}
        list_to_set (query (build_inverted_index uni_word documents stopwords) words).
Proof.
  intros Huni.
  destruct (load_dump (build_inverted_index uni_word documents stopwords)
              handler fs) as (loaded & Hload & Htyped).
  { by apply build_keys_scalar. }
  by exists loaded, (build_inverted_index uni_word documents stopwords).
Qed.

Lemma dump_load_round_trip_witness :
  (∀ c, latin1_word c = true → scalar_value c)
  ∧ ∃ loaded self',
      load (u "inverted.index")
        (dump (build_inverted_index latin1_word
                 {[ 0%Z := u "the caf" ++ [233] ++ u " sat" ++ [LF] ]} {[ u "the" ]})
           (u "inverted.index") ∅)
      = Ok loaded
      ∧ typed loaded = Some self'
      ∧ ∀ words,
          list_to_set (query self' words)
          =@{gset Z}
          list_to_set
            (query (build_inverted_index latin1_word
                      {[ 0%Z := u "the caf" ++ [233] ++ u " sat" ++ [LF] ]}
                      {[ u "the" ]}) words).
Proof.
  split; [exact latin1_word_scalar|].
  exact (dump_load_round_trip latin1_word _ _ _ _ latin1_word_scalar).
Defined.




(** C8, as the code has it.  Every key of the index that
    [build_inverted_index] returns has at least one id.  [load] makes no such
    check: it gives back the mapping that was dumped, entries with an empty
    list included. *)
Theorem entries_nonempty_when_built (uni_word : N → bool)
    (documents : gmap Z str) (stopwords : gset str) :
  (∀ t ids,
     inverted_index (build_inverted_index uni_word documents stopwords) !! t = Some ids →
     ids ≠ [])
  ∧ (∀ (self : Index) handler fs,
       map_Forall (λ key _, Forall scalar_value key) (inverted_index self) →
       ∃ loaded,
         load handler (dump self handler fs) = Ok loaded
         ∧ typed loaded = Some self).
Proof.
  split.
  - apply build_nonempty.
  - apply load_dump.
Qed.

Lemma entries_nonempty_when_built_witness :
  inverted_index
    (build_inverted_index ascii_only {[ 0%Z := u "the cat sat" ]} {[ u "the" ]})
    !! u "cat" = Some [0%Z]
  ∧ [0%Z] ≠ []
  ∧ ∃ loaded,
      load (u "inverted.index")
        (dump {| inverted_index := {[ u "a" := [] ]} |} (u "inverted.index") ∅)
      = Ok loaded
      ∧ typed loaded = Some {| inverted_index := {[ u "a" := [] ]} |}.
Proof.
  destruct (entries_nonempty_when_built ascii_only
              {[ 0%Z := u "the cat sat" ]} {[ u "the" ]}) as (Hbuilt & Hload).
  assert (Hcat : inverted_index
            (build_inverted_index ascii_only {[ 0%Z := u "the cat sat" ]}
               {[ u "the" ]}) !! u "cat" = Some [0%Z])
    by (vm_compute; reflexivity).
  split; [exact Hcat|]. split; [exact (Hbuilt _ _ Hcat)|].
  apply (Hload {| inverted_index := {[ u "a" := [] ]} |}).
  intros key ids. cbn [inverted_index].
  intros [<- _]%lookup_singleton_Some.
  repeat constructor; vm_compute; reflexivity.
Defined.

(** C8, counterexample to the sentence of the specification, for [load]: the
    content binds a key to the empty list, and the loaded instance keeps that
    entry. *)
Lemma load_keeps_empty_entry :
  load (u "inverted.index")
    {[ u "inverted.index" := u "{" ++ [QUOTE] ++ u "a" ++ [QUOTE] ++ u ": []}" ]}
  = Ok {| inverted_index := JObj {[ u "a" := JArr [] ]} |}
  ∧ typed {| inverted_index := JObj {[ u "a" := JArr [] ]} |}
    = Some {| inverted_index := {[ u "a" := [] ]} |}
  ∧ ({[ u "a" := [] ]} : gmap str (list Z)) !! u "a" = Some [].
Proof. repeat split; vm_compute; reflexivity. Qed.

(** * Further properties *)

(** ** The builder and the query together *)

(** X1.  The keys of a built index are made of word characters only: no key
    holds a space, a newline or a punctuation mark. *)
Theorem build_keys_word_chars (uni_word : N → bool)
    (documents : gmap Z str) (stopwords : gset str) (t : str) (ids : list Z) :
  inverted_index (build_inverted_index uni_word documents stopwords) !! t = Some ids →
  Forall (λ c, is_word uni_word c = true) t.
Proof.
  intros Hkey.
  assert (is_Some (inverted_index
            (build_inverted_index uni_word documents stopwords) !! t))
    as (d & content & _ & Htoken & _)%build_key by eauto.
  by apply re_split_word_chars in Htoken.
Qed.

Lemma build_keys_word_chars_witness :
  inverted_index
    (build_inverted_index ascii_only {[ 0%Z := u "the cat, sat." ]} {[ u "the" ]})
    !! u "cat" = Some [0%Z]
  ∧ Forall (λ c, is_word ascii_only c = true) (u "cat").
Proof.
  assert (H : inverted_index
            (build_inverted_index ascii_only {[ 0%Z := u "the cat, sat." ]}
               {[ u "the" ]}) !! u "cat" = Some [0%Z])
    by (vm_compute; reflexivity).
  split; [exact H|]. exact (build_keys_word_chars _ _ _ _ _ H).
Defined.

(** X2.  The keys of a built index are exactly the tokens of the documents
    that are not stopwords.  So a stopword is never a key, and the index has
    no key at all exactly when every token of every document is a stopword,
    as for a corpus without documents. *)
Theorem build_keys_exactly (uni_word : N → bool)
    (documents : gmap Z str) (stopwords : gset str) :
  (∀ t,
     is_Some (inverted_index (build_inverted_index uni_word documents stopwords) !! t)
     ↔ (t ∉ stopwords)
       ∧ ∃ d content, documents !! d = Some content ∧ t ∈ re_split uni_word content)
  ∧ (∀ t, t ∈ stopwords →
       inverted_index (build_inverted_index uni_word documents stopwords) !! t = None)
  ∧ (inverted_index (build_inverted_index uni_word documents stopwords) = ∅
     ↔ ∀ d content t,
         documents !! d = Some content → t ∈ re_split uni_word content →
         t ∈ stopwords).
Proof.
  assert (Hkeys : ∀ t,
    is_Some (inverted_index (build_inverted_index uni_word documents stopwords) !! t)
    ↔ (t ∉ stopwords)
      ∧ ∃ d content, documents !! d = Some content ∧ t ∈ re_split uni_word content).
  { intros t. rewrite build_key. unfold indexed.
    setoid_rewrite elem_of_map_to_list. naive_solver. }
  split; [exact Hkeys|]. split.
  - intros t Ht. apply eq_None_not_Some. rewrite Hkeys. tauto.
  - rewrite map_empty. split.
    + intros Hempty d content t Hd Ht.
      destruct (decide (t ∈ stopwords)) as [|Hno]; [done|]. exfalso.
      assert (is_Some (inverted_index
                (build_inverted_index uni_word documents stopwords) !! t))
        as [ids Hids] by (apply Hkeys; eauto).
      by rewrite Hempty in Hids.
    + intros Hall t. apply eq_None_not_Some. rewrite Hkeys.
      intros (Hno & d & content & Hd & Ht). apply Hno. by eapply Hall.
Qed.

Lemma build_keys_exactly_witness :
  inverted_index
    (build_inverted_index ascii_only {[ 0%Z := u "the cat" ]} {[ u "the" ]})
    !! u "the" = None
  ∧ inverted_index
      (build_inverted_index ascii_only {[ 0%Z := u "the the" ]} {[ u "the" ]}) = ∅.
Proof.
  split.
  - destruct (build_keys_exactly ascii_only {[ 0%Z := u "the cat" ]} {[ u "the" ]})
      as (_ & Hstop & _).
    apply Hstop. by apply elem_of_singleton.
  - destruct (build_keys_exactly ascii_only {[ 0%Z := u "the the" ]} {[ u "the" ]})
      as (_ & _ & Hempty).
    apply Hempty. intros d content t [<- <-]%lookup_singleton_Some Ht.
    apply elem_of_singleton.
    assert (Hsplit : re_split ascii_only (u "the the") = [u "the"; u "the"])
      by (vm_compute; reflexivity).
    rewrite Hsplit in Ht.
    by apply elem_of_cons in Ht as [->| ->%list_elem_of_singleton].
Defined.

(** X3.  Every id list of a built index is free of repetition, however often
    the token occurs in a document, and lists ids of the corpus only. *)
Theorem build_ids_distinct_known (uni_word : N → bool)
    (documents : gmap Z str) (stopwords : gset str) (t : str) (ids : list Z) :
  inverted_index (build_inverted_index uni_word documents stopwords) !! t = Some ids →
  NoDup ids ∧ ∀ d, d ∈ ids → is_Some (documents !! d).
Proof.
  intros Hkey. split.
  - rewrite build_lookup, fmap_Some in Hkey.
    destruct Hkey as (doc_ids & _ & ->). apply NoDup_elements.
  - intros d Hd.
    assert (indexed uni_word stopwords (map_to_list documents) t d)
      as (content & Hin%elem_of_map_to_list & _) by (apply build_member; eauto).
    by eexists.
Qed.

Lemma build_ids_distinct_known_witness :
  inverted_index
    (build_inverted_index ascii_only {[ 7%Z := u "cat cat cat" ]} ∅) !! u "cat"
  = Some [7%Z]
  ∧ NoDup [7%Z] ∧ ∀ d, d ∈ [7%Z] → is_Some (({[ 7%Z := u "cat cat cat" ]} : gmap Z str) !! d).
Proof.
  assert (H : inverted_index
            (build_inverted_index ascii_only {[ 7%Z := u "cat cat cat" ]} ∅)
            !! u "cat" = Some [7%Z])
    by (vm_compute; reflexivity).
  split; [exact H|]. exact (build_ids_distinct_known _ _ _ _ _ H).
Defined.

(** The built index lists [d] under [t]. *)
Definition lists (self : Index) (t : str) (d : Z) : Prop :=
  ∃ ids, inverted_index self !! t = Some ids ∧ d ∈ ids.

(** X4.  Building is compatible with splitting the corpus: for two corpora
    without a common id, the index of their union lists [d] under [t]
    exactly when the index of one of the two does. *)
Theorem build_union (uni_word : N → bool)
    (documents1 documents2 : gmap Z str) (stopwords : gset str) (t : str) (d : Z) :
  documents1 ##ₘ documents2 →
  lists (build_inverted_index uni_word (documents1 ∪ documents2) stopwords) t d
  ↔ lists (build_inverted_index uni_word documents1 stopwords) t d
    ∨ lists (build_inverted_index uni_word documents2 stopwords) t d.
Proof.
  intros Hdisj. unfold lists. rewrite !build_member. unfold indexed.
  setoid_rewrite elem_of_map_to_list.
  setoid_rewrite (lookup_union_Some _ _ _ _ Hdisj). naive_solver.
Qed.

Lemma build_union_witness :
  ({[ 0%Z := u "the cat" ]} : gmap Z str) ##ₘ {[ 1%Z := u "a cat" ]}
  ∧ (lists (build_inverted_index ascii_only
              ({[ 0%Z := u "the cat" ]} ∪ {[ 1%Z := u "a cat" ]}) ∅) (u "cat") 1%Z
     ↔ lists (build_inverted_index ascii_only {[ 0%Z := u "the cat" ]} ∅) (u "cat") 1%Z
       ∨ lists (build_inverted_index ascii_only {[ 1%Z := u "a cat" ]} ∅) (u "cat") 1%Z).
Proof.
  assert (H : ({[ 0%Z := u "the cat" ]} : gmap Z str) ##ₘ {[ 1%Z := u "a cat" ]}).
  { apply map_disjoint_singleton_l. by apply lookup_singleton_ne. }
  split; [exact H|]. exact (build_union _ _ _ _ _ _ H).
Defined.

(** X5.  Build, then query: the ids returned for [words] are the ids of the
    documents that have one of the words among their tokens, stopwords left
    out.  A query never returns an id that is not in the corpus. *)
Theorem query_built_index (uni_word : N → bool)
    (documents : gmap Z str) (stopwords : gset str) (words : list str) (d : Z) :
  d ∈ query (build_inverted_index uni_word documents stopwords) words
  ↔ ∃ t content,
      t ∈ words ∧ (t ∉ stopwords)
      ∧ documents !! d = Some content ∧ t ∈ re_split uni_word content.
Proof.
  rewrite elem_of_query. split.
  - intros (t & ids & Ht & Hids & Hd).
    assert (indexed uni_word stopwords (map_to_list documents) t d)
      as (content & Hin%elem_of_map_to_list & ? & ?) by (apply build_member; eauto).
    by exists t, content.
  - intros (t & content & Ht & Hno & Hdoc & Htoken).
    assert (∃ ids,
      inverted_index (build_inverted_index uni_word documents stopwords) !! t
      = Some ids ∧ d ∈ ids) as (ids & ? & ?).
    { apply build_member. exists content. by rewrite elem_of_map_to_list. }
    by exists t, ids.
Qed.

(** X6.  The result of a query depends on the set of its terms only: more
    terms give more ids, so the order of the terms and their repetition do
    not change the set returned. *)
Theorem query_terms_set (self : Index) (words1 words2 : list str) :
  ((∀ t, t ∈ words1 → t ∈ words2) →
   ∀ d, d ∈ query self words1 → d ∈ query self words2)
  ∧ ((∀ t, t ∈ words1 ↔ t ∈ words2) →
     list_to_set (query self words1) =@{gset Z} list_to_set (query self words2)).
Proof.
  assert (Hmono : ∀ w1 w2 : list str, (∀ t, t ∈ w1 → t ∈ w2) →
            ∀ d, d ∈ query self w1 → d ∈ query self w2).
  { intros w1 w2 Hsub d. rewrite !elem_of_query.
    intros (t & ids & ? & ? & ?). exists t, ids. auto. }
  split; [apply Hmono|].
  intros Hsame. apply set_eq. intros d. rewrite !elem_of_list_to_set.
  split; apply Hmono; intros t; apply Hsame.
Qed.

Lemma query_terms_set_witness :
  list_to_set (query {| inverted_index := {[ u "cat" := [0%Z]; u "dog" := [1%Z] ]} |}
                 [u "cat"; u "dog"; u "cat"])
  =@{gset Z}
  list_to_set (query {| inverted_index := {[ u "cat" := [0%Z]; u "dog" := [1%Z] ]} |}
                 [u "dog"; u "cat"]).
Proof.
  destruct (query_terms_set
              {| inverted_index := {[ u "cat" := [0%Z]; u "dog" := [1%Z] ]} |}
              [u "cat"; u "dog"; u "cat"] [u "dog"; u "cat"]) as (_ & Hsame).
  apply Hsame. intros t. rewrite !elem_of_cons, !elem_of_nil. tauto.
Defined.

(** ** dump and load *)

(** From the space to the tilde. *)
Definition printable (c : N) : Prop := 32 ≤ c ∧ c ≤ 126.

Lemma hex_digit_printable k : k < 16 → printable (hex_digit k).
Proof. unfold printable, hex_digit. destruct (N.ltb_spec k 10); lia. Qed.

Lemma u_escape_printable n : Forall printable (u_escape n).
Proof.
  unfold u_escape, hex4.
  repeat constructor; try (unfold printable; lia);
    apply hex_digit_printable, N.mod_lt; lia.
Qed.

Lemma escape_char_printable c : Forall printable (escape_char c).
Proof.
  unfold escape_char.
  repeat (case_match; [repeat constructor; unfold printable; lia|]).
  destruct (N.leb_spec 32 c), (N.leb_spec c 126); cbn [andb].
  - repeat constructor; unfold printable; lia.
  - case_match; [apply u_escape_printable|].
    apply Forall_app. split; apply u_escape_printable.
  - case_match; [apply u_escape_printable|].
    apply Forall_app. split; apply u_escape_printable.
  - case_match; [apply u_escape_printable|].
    apply Forall_app. split; apply u_escape_printable.
Qed.

Lemma int_repr_printable z : Forall printable (int_repr z).
Proof.
  assert (Hdigits : ∀ d, Forall printable (uint_str d)).
  { intros d. eapply Forall_impl; [apply uint_str_digits|].
    intros c [?%N.leb_le ?%N.leb_le]%andb_true_iff. unfold printable. lia. }
  destruct z; simpl; [|done|]; repeat constructor; try done; unfold printable; lia.
Qed.

Lemma encode_items_printable {A} (enc : A → str) first (items : list A) :
  (∀ x, Forall printable (enc x)) →
  Forall printable (encode_items enc first items).
Proof.
  intros Henc. revert first. induction items as [|x items IH]; intros first; simpl.
  { constructor. }
  apply Forall_app. split.
  - destruct first; repeat constructor; unfold printable; lia.
  - apply Forall_app. split; [apply Henc|apply IH].
Qed.

Lemma encode_list_printable ids : Forall printable (encode_list ids).
Proof.
  unfold encode_list. destruct ids as [|z ids].
  { repeat constructor; unfold printable; lia. }
  constructor; [unfold printable; lia|]. apply Forall_app. split.
  - apply encode_items_printable, int_repr_printable.
  - repeat constructor; unfold printable; lia.
Qed.

(** X7.  [dump] writes printable ASCII only (from the space to the tilde),
    whatever characters the keys hold: everything else is escaped. *)
Theorem dump_writes_ascii (self : Index) (handler : str) (fs : gmap str str) :
  ∃ text, dump self handler fs !! handler = Some text ∧ Forall printable text.
Proof.
  unfold dump. rewrite lookup_insert_eq. eexists. split; [done|].
  unfold json_dumps, encode_dict.
  destruct (map_to_list (inverted_index self)) as [|item items].
  { repeat constructor; unfold printable; lia. }
  constructor; [unfold printable; lia|]. apply Forall_app. split.
  - apply encode_items_printable. intros [key ids].
    unfold encode_pair, encode_basestring_ascii. simpl.
    constructor; [unfold printable; lia|].
    rewrite !Forall_app. split; [split|].
    + apply Forall_bind. apply Forall_forall. intros c _.
      apply escape_char_printable.
    + repeat constructor; unfold printable; lia.
    + constructor; [unfold printable; lia|].
      constructor; [unfold printable; lia|]. apply encode_list_printable.
  - repeat constructor; unfold printable; lia.
Qed.

Lemma skip_ws_app (before s : str) :
  Forall (λ c, is_ws c = true) before → skip_ws (before ++ s) = skip_ws s.
Proof. induction 1 as [|c before Hc _ IH]; simpl; [done|]. by rewrite Hc. Qed.

Lemma skip_ws_all (s : str) : Forall (λ c, is_ws c = true) s → skip_ws s = [].
Proof. intros H. rewrite <- (app_nil_r s), skip_ws_app by done. done. Qed.

Lemma scan_once_dumps (obj : gmap str (list Z)) (rest : str) :
  map_Forall (λ key _, Forall scalar_value key) obj →
  ∃ n, scan_once n (encode_dict obj ++ rest)
       = Some (Ok (JObj (to_json_ids <$> obj), rest)).
Proof.
  intros Hkeys.
  set (bound := foldr (λ item, max (length item.2)) 0%nat (map_to_list obj)).
  exists (size obj + bound + 4)%nat.
  rewrite <- dict_to_json. apply scan_once_dict with bound; [|done].
  intros key ids Hin. split; [by apply (Hkeys key ids)|].
  apply elem_of_map_to_list in Hin. unfold bound.
  induction (map_to_list obj) as [|item items IH]; [by apply elem_of_nil in Hin|].
  apply elem_of_cons in Hin as [<-|Hin]; simpl; [lia|].
  specialize (IH Hin). lia.
Qed.

(** X8.  [load] does not mind whitespace around the value: what [dump] wrote,
    with spaces, tabs or newlines added before and after it, loads as the
    same mapping. *)
Theorem load_surrounding_whitespace (self : Index) (handler : str)
    (fs : gmap str str) (before after : str) :
  map_Forall (λ key _, Forall scalar_value key) (inverted_index self) →
  Forall (λ c, is_ws c = true) before →
  Forall (λ c, is_ws c = true) after →
  ∃ loaded,
    load handler
      (<[handler := before ++ json_dumps (inverted_index self) ++ after]> fs)
    = Ok loaded
    ∧ typed loaded = Some self.
Proof.
  intros Hkeys Hbefore Hafter. unfold load. rewrite lookup_insert_eq.
  exists {| inverted_index := JObj (to_json_ids <$> inverted_index self) |}.
  split.
  - unfold json_loads, json_dumps. rewrite skip_ws_app by done.
    assert (Hws : ∀ rest : str,
      skip_ws (encode_dict (inverted_index self) ++ rest)
      = encode_dict (inverted_index self) ++ rest).
    { intros rest. unfold encode_dict.
      by destruct (map_to_list (inverted_index self)). }
    rewrite Hws.
    destruct (scan_once_dumps (inverted_index self) after Hkeys) as [n Hscan].
    assert (Hlen : (length (encode_dict (inverted_index self) ++ after)
                    ≤ length (before ++ encode_dict (inverted_index self) ++ after))%nat)
      by (rewrite !length_app; lia).
    rewrite (scan_once_enough n _ _ _ Hlen Hscan).
    simpl. by rewrite skip_ws_all.
  - unfold typed. cbn [inverted_index]. rewrite as_index_to_json. by destruct self.
Qed.

Definition cat_index : Index :=
  {| inverted_index := {[ u "cat" := [0%Z; 1%Z] ]} |}.

Lemma cat_index_keys :
  map_Forall (λ key _, Forall scalar_value key) (inverted_index cat_index).
Proof.
  intros key ids. unfold cat_index. cbn [inverted_index].
  intros [<- _]%lookup_singleton_Some.
  repeat constructor; vm_compute; reflexivity.
Qed.

Lemma load_surrounding_whitespace_witness :
  ∃ loaded,
    load (u "inverted.index")
      (<[u "inverted.index" :=
           [32; 10] ++ json_dumps (inverted_index cat_index) ++ [10]]> ∅)
    = Ok loaded
    ∧ typed loaded = Some cat_index.
Proof.
  assert (Hbefore : Forall (λ c, is_ws c = true) [32; 10]) by repeat constructor.
  assert (Hafter : Forall (λ c, is_ws c = true) [10]) by repeat constructor.
  exact (load_surrounding_whitespace cat_index (u "inverted.index") ∅
           [32; 10] [10] cat_index_keys Hbefore Hafter).
Defined.

(** ** The corpus loader, further *)

Section CorpusResult.

Variable uni_lower : str → str.
Variable uni_int : str → option Z.

#[local] Abbreviation parse' := (parse_line uni_lower uni_int).
#[local] Abbreviation loop' := (load_lines uni_lower uni_int).

Lemma load_lines_ok_inv documents lines documents' :
  loop' documents lines = Ok documents' →
  Forall (λ line, ∃ item, parse' line = Ok item) lines.
Proof.
  revert documents. induction lines as [|l lines IH]; intros documents H.
  { constructor. }
  simpl in H. destruct (parse' l) as [[k content]|e] eqn:El; [|done].
  simpl in H. constructor; [by eexists|by eapply IH].
Qed.

Lemma load_lines_raise_kind documents lines e :
  loop' documents lines = Raise e → e = ValueError.
Proof.
  revert documents. induction lines as [|l lines IH]; intros documents H; [done|].
  simpl in H. destruct (parse' l) as [[k content]|e'] eqn:El; simpl in H.
  - by eapply IH.
  - apply parse_line_raise in El. congruence.
Qed.

(** The binding of [k] after the loop: the content of the last line that
    carries [k], or the binding before the loop when no line carries it. *)
Lemma load_lines_lookup documents lines documents' k content :
  loop' documents lines = Ok documents' →
  documents' !! k = Some content
  ↔ (∃ before line after,
       lines = before ++ line :: after
       ∧ parse' line = Ok (k, content)
       ∧ Forall (λ l, ∀ c, parse' l ≠ Ok (k, c)) after)
    ∨ (documents !! k = Some content
       ∧ Forall (λ l, ∀ c, parse' l ≠ Ok (k, c)) lines).
Proof.
  revert documents. induction lines as [|l lines IH]; intros documents H.
  { simpl in H. injection H as <-. split; [by right|].
    intros [(before & line & after & Hnil & _)|[? _]]; [|done].
    by destruct before. }
  simpl in H. destruct (parse' l) as [[k0 c0]|e] eqn:El; [|done]. simpl in H.
  rewrite (IH _ H). split.
  - intros [(before & line & after & -> & Hline & Hafter)|[Hk Hrest]].
    + left. by exists (l :: before), line, after.
    + destruct (decide (k0 = k)) as [->|Hne].
      * rewrite lookup_insert_eq in Hk. injection Hk as ->.
        left. by exists [], l, lines.
      * rewrite lookup_insert_ne in Hk by done. right. split; [done|].
        constructor; [|done]. intros c. rewrite El. congruence.
  - intros [(before & line & after & Hcons & Hline & Hafter)|[Hk Hrest]].
    + destruct before as [|l' before]; simpl in Hcons; injection Hcons as -> ->.
      * right. rewrite El in Hline. injection Hline as -> ->.
        by rewrite lookup_insert_eq.
      * left. by exists before, line, after.
    + apply Forall_cons in Hrest as [Hl Hrest]. right. split; [|done].
      rewrite lookup_insert_ne; [done|]. intros ->. by apply (Hl c0).
Qed.

End CorpusResult.



(** X11.  The mapping [load_documents] returns binds an id to a content
    exactly when some line carries that id with that content and no later
    line carries the id: ids come from the lines only, and the last line
    wins. *)
Theorem load_documents_bindings (uni_lower : str → str) (uni_int : str → option Z)
    (handler : str) (fs : gmap str str) (text : str)
    (documents : gmap Z str) (k : Z) (content : str) :
  fs !! handler = Some text →
  load_documents uni_lower uni_int handler fs = Ok documents →
  documents !! k = Some content
  ↔ ∃ before line after,
      readlines text = before ++ line :: after
      ∧ parse_line uni_lower uni_int line = Ok (k, content)
      ∧ Forall (λ l, ∀ c, parse_line uni_lower uni_int l ≠ Ok (k, c)) after.
Proof.
  intros Hfs. unfold load_documents. rewrite Hfs. intros Hload.
  rewrite (load_lines_lookup _ _ _ _ _ k content Hload).
  rewrite lookup_empty. naive_solver.
Qed.

Lemma load_documents_bindings_witness :
  ∃ documents,
    load_documents no_uni_lower no_uni_int (u "corpus")
      {[ u "corpus" := corpus_with_duplicate_id ]} = Ok documents
    ∧ (documents !! 1%Z = Some (u "other" ++ [LF])
       ↔ ∃ before line after,
           readlines corpus_with_duplicate_id = before ++ line :: after
           ∧ parse_line no_uni_lower no_uni_int line = Ok (1%Z, u "other" ++ [LF])
           ∧ Forall (λ l, ∀ c, parse_line no_uni_lower no_uni_int l ≠ Ok (1%Z, c))
               after).
Proof.
  destruct (load_documents no_uni_lower no_uni_int (u "corpus")
              {[ u "corpus" := corpus_with_duplicate_id ]}) as [documents|e] eqn:E;
    [|vm_compute in E; discriminate].
  exists documents. split; [done|].
  apply (load_documents_bindings no_uni_lower no_uni_int (u "corpus")
           {[ u "corpus" := corpus_with_duplicate_id ]} corpus_with_duplicate_id).
  - vm_compute. reflexivity.
  - exact E.
Defined.

Lemma forallb_true {A} (f : A → bool) (l : list A) :
  Forall (λ x, f x = true) l → forallb f l = true.
Proof. induction 1 as [|x l Hx _ IH]; simpl; [done|]. by rewrite Hx, IH. Qed.

Lemma readlines_join (s : str) : mjoin (readlines s) = s.
Proof.
  induction s as [|c r IH]; [done|]. simpl.
  destruct (c =? LF) eqn:Hc.
  - apply N.eqb_eq in Hc as ->. simpl. by rewrite IH.
  - destruct (readlines r) as [|line lines]; simpl in *; by rewrite <- IH.
Qed.

Lemma readlines_chars (s line : str) c :
  line ∈ readlines s → c ∈ line → c ∈ s.
Proof.
  intros Hline Hc. rewrite <- (readlines_join s).
  apply list_elem_of_join. eauto.
Qed.

Lemma readlines_line (x rest : str) :
  LF ∉ x → readlines (x ++ LF :: rest) = (x ++ [LF]) :: readlines rest.
Proof.
  induction x as [|c x IH]; intros Hx; [reflexivity|]. simpl.
  destruct (N.eqb_spec c LF) as [->|_]; [destruct Hx; left|].
  rewrite IH; [done|]. intros ?. apply Hx. by right.
Qed.

Lemma split_tab_chars (s piece : str) c :
  piece ∈ split_tab s → c ∈ piece → c ∈ s.
Proof.
  revert piece. induction s as [|a r IH]; intros piece; simpl.
  { by intros ->%list_elem_of_singleton. }
  destruct (a =? TAB).
  - intros [->| ->%list_elem_of_singleton]%elem_of_cons Hc.
    + by apply elem_of_nil in Hc.
    + by right.
  - destruct (split_tab r) as [|p ps] eqn:E.
    + intros ->%list_elem_of_singleton ->%list_elem_of_singleton. left.
    + intros [->|Hin]%elem_of_cons Hc.
      * apply elem_of_cons in Hc as [->|Hc]; [left|right].
        apply (IH p); [left|done].
      * right. apply (IH piece); [by right|done].
Qed.

(** X12.  The corpus loader normalises the case: in the mapping loaded from
    an ASCII corpus no content holds an upper-case letter. *)
Theorem load_documents_lowercase (uni_lower : str → str) (uni_int : str → option Z)
    (handler : str) (fs : gmap str str) (text : str)
    (documents : gmap Z str) (k : Z) (content : str) :
  Forall (λ c, is_ascii c = true) text →
  fs !! handler = Some text →
  load_documents uni_lower uni_int handler fs = Ok documents →
  documents !! k = Some content →
  Forall (λ c, ¬ (65 ≤ c ∧ c ≤ 90)) content.
Proof.
  intros Hascii Hfs. unfold load_documents. rewrite Hfs. intros Hload Hk.
  apply (load_lines_lookup _ _ _ _ _ k content Hload) in Hk
    as [(before & line & after & Hlines & Hline & _)|[Hk _]]; [|done].
  assert (Hin : line ∈ readlines text).
  { rewrite Hlines. apply elem_of_app. right. left. }
  assert (Hline_ascii : forallb is_ascii line = true).
  { apply forallb_true, Forall_forall. intros c Hc.
    rewrite Forall_forall in Hascii. apply Hascii. by eapply readlines_chars. }
  unfold parse_line, str_lower in Hline. rewrite Hline_ascii in Hline.
  destruct (split_tab (ascii_lower <$> line)) as [|a [|b [|? ?]]] eqn:E;
    try done.
  destruct (py_int uni_int a); [|done]. injection Hline as _ ->.
  apply Forall_forall. intros c Hc.
  assert (c ∈ ascii_lower <$> line) as (c' & -> & _)%list_elem_of_fmap.
  { apply (split_tab_chars _ content); [|done]. rewrite E. right. left. }
  unfold ascii_lower.
  destruct (N.leb_spec 65 c'), (N.leb_spec c' 90); cbn [andb]; lia.
Qed.

Lemma load_documents_lowercase_witness :
  ∃ documents,
    load_documents no_uni_lower no_uni_int (u "corpus")
      {[ u "corpus" := u "3" ++ [TAB] ++ u "The CAT" ]} = Ok documents
    ∧ documents !! 3%Z = Some (u "the cat")
    ∧ Forall (λ c, ¬ (65 ≤ c ∧ c ≤ 90)) (u "the cat").
Proof.
  exists {[ 3%Z := u "the cat" ]}.
  assert (Hload : load_documents no_uni_lower no_uni_int (u "corpus")
                    {[ u "corpus" := u "3" ++ [TAB] ++ u "The CAT" ]}
                  = Ok {[ 3%Z := u "the cat" ]}) by (vm_compute; reflexivity).
  assert (Hk : ({[ 3%Z := u "the cat" ]} : gmap Z str) !! 3%Z = Some (u "the cat"))
    by (vm_compute; reflexivity).
  split; [exact Hload|]. split; [exact Hk|].
  refine (load_documents_lowercase no_uni_lower no_uni_int (u "corpus")
            {[ u "corpus" := u "3" ++ [TAB] ++ u "The CAT" ]}
            (u "3" ++ [TAB] ++ u "The CAT") {[ 3%Z := u "the cat" ]} 3%Z
            (u "the cat") _ _ Hload Hk).
  - repeat constructor.
  - vm_compute. reflexivity.
Defined.

(** The corpus loader reads back a corpus written in its format. *)

Lemma int_repr_chars z : Forall (λ c, is_digit c = true ∨ c = 45) (int_repr z).
Proof.
  assert (Hdigits : ∀ d, Forall (λ c, is_digit c = true ∨ c = 45) (uint_str d)).
  { intros d. eapply Forall_impl; [apply uint_str_digits|]. by left. }
  destruct z; simpl; [|done|]; repeat constructor; by auto.
Qed.

Lemma lstrip_head (s : str) :
  match s with c :: _ => is_space c = false | [] => True end → lstrip s = s.
Proof. destruct s as [|c r]; simpl; [done|]. by intros ->. Qed.

Lemma strip_clean (s : str) : Forall (λ c, is_space c = false) s → strip s = s.
Proof.
  intros Hs. unfold strip. rewrite (lstrip_head s) by (by destruct Hs).
  rewrite lstrip_head; [apply reverse_involutive|].
  apply Forall_reverse in Hs. by destruct Hs.
Qed.

Lemma int_digits_all (s : str) :
  Forall (λ c, is_digit c = true) s →
  int_digits true s = Some s ∧ (s ≠ [] → int_digits false s = Some s).
Proof.
  induction 1 as [|c s Hc _ [IH _]]; [done|]. simpl. rewrite Hc, IH. done.
Qed.

Lemma int_ascii_repr z : int_ascii (int_repr z) = Some z.
Proof.
  unfold int_ascii. rewrite strip_clean.
  2:{ eapply Forall_impl; [apply int_repr_chars|]. intros c. unfold is_space, is_digit.
      intros [[?%N.leb_le ?%N.leb_le]%andb_true_iff| ->]; [|done].
      apply orb_false_iff. split; [apply andb_false_iff; right; apply N.leb_gt; lia|].
      apply N.eqb_neq. lia. }
  destruct z as [|p|p]; [done| |]; unfold int_repr.
  - pose proof (uint_str_digits (Pos.to_uint p)) as Hds.
    pose proof (parse_int_pos p) as Hp.
    destruct (pos_repr_head p) as (c & ds & E & Hc & _). rewrite E in *.
    unfold is_digit in Hc. apply andb_true_iff in Hc as [?%N.leb_le ?%N.leb_le].
    cbv iota beta.
    destruct (N.eqb_spec c 45); [lia|]. destruct (N.eqb_spec c 43); [lia|].
    destruct (int_digits_all _ Hds) as (_ & ->); [|done].
    cbn [mbind option_bind]. by rewrite Hp.
  - pose proof (uint_str_digits (Pos.to_uint p)) as Hds.
    destruct (pos_repr_head p) as (c & ds & E & _).
    cbv iota beta. change (45 =? 45) with true. cbv iota.
    destruct (int_digits_all _ Hds) as (_ & ->); [|by rewrite E].
    cbn [mbind option_bind]. by rewrite parse_int_pos.
Qed.

Lemma split_tab_app (a b : str) : TAB ∉ a → split_tab (a ++ TAB :: b) = [a; b].
Proof.
  induction a as [|c a IH]; intros Ha; [reflexivity|]. simpl.
  destruct (N.eqb_spec c TAB) as [->|_]; [destruct Ha; left|].
  rewrite IH; [done|]. intros ?. apply Ha. by right.
Qed.

(** One line of a corpus: the id as [str] prints it, a tab, the content, a
    newline. *)
Definition corpus_line (item : Z * str) : str :=
  int_repr item.1 ++ TAB :: item.2 ++ [LF].

Section CorpusWritten.

Variable uni_lower : str → str.
Variable uni_int : str → option Z.

Lemma parse_line_written k (rest : str) :
  Forall (λ c, is_ascii c = true) rest →
  parse_line uni_lower uni_int (int_repr k ++ TAB :: rest)
  = Ok (k, ascii_lower <$> rest).
Proof.
  intros Hrest.
  assert (Hid : Forall (λ c, is_ascii c = true ∧ ascii_lower c = c ∧ c ≠ TAB)
                  (int_repr k)).
  { eapply Forall_impl; [apply int_repr_chars|]. intros c.
    unfold is_ascii, ascii_lower, is_digit, TAB.
    intros [[?%N.leb_le ?%N.leb_le]%andb_true_iff| ->]; [|done].
    split; [apply N.ltb_lt; lia|]. split; [|lia].
    destruct (N.leb_spec 65 c); [lia|done]. }
  unfold parse_line, str_lower, py_int.
  rewrite forallb_true.
  2:{ apply Forall_app. split; [eapply Forall_impl; [exact Hid|]; naive_solver|].
      by constructor. }
  rewrite fmap_app, fmap_cons.
  replace (ascii_lower <$> int_repr k) with (int_repr k).
  2:{ symmetry. rewrite <- (list_fmap_id (int_repr k)) at 2.
      apply Forall_fmap_ext_1. eapply Forall_impl; [exact Hid|]. naive_solver. }
  change (ascii_lower TAB) with TAB. rewrite split_tab_app.
  2:{ intros Hin. rewrite Forall_forall in Hid. by destruct (Hid _ Hin) as (_ & _ & ?). }
  rewrite forallb_true by (eapply Forall_impl; [exact Hid|]; naive_solver).
  by rewrite int_ascii_repr.
Qed.

Lemma load_lines_written (items : list (Z * str)) (documents : gmap Z str) :
  Forall (λ item, Forall (λ c, is_ascii c = true) item.2) items →
  load_lines uni_lower uni_int documents (corpus_line <$> items)
  = Ok (foldl (λ documents item,
                 <[item.1 := (ascii_lower <$> item.2) ++ [LF]]> documents)
          documents items).
Proof.
  intros Hitems. revert documents.
  induction Hitems as [|[k content] items Hitem _ IH]; intros documents; [done|].
  simpl in Hitem. cbn [fmap list_fmap load_lines foldl].
  change (corpus_line (k, content)) with (int_repr k ++ TAB :: content ++ [LF]).
  cbn [fst snd]. rewrite parse_line_written.
  2:{ apply Forall_app. split; [done|]. by repeat constructor. }
  simpl. rewrite IH. by rewrite fmap_app.
Qed.

Lemma readlines_written (items : list (Z * str)) :
  Forall (λ item, LF ∉ item.2) items →
  readlines (mjoin (corpus_line <$> items)) = corpus_line <$> items.
Proof.
  induction 1 as [|[k content] items Hitem _ IH]; [done|].
  simpl in Hitem. cbn [fmap list_fmap mjoin list_join].
  change (corpus_line (k, content)) with (int_repr k ++ TAB :: content ++ [LF]).
  replace ((int_repr k ++ TAB :: content ++ [LF]) ++ mjoin (corpus_line <$> items))
    with ((int_repr k ++ TAB :: content) ++ LF :: mjoin (corpus_line <$> items)).
  2:{ rewrite <- !app_assoc. simpl. by rewrite <- app_assoc. }
  rewrite readlines_line.
  - rewrite IH. f_equal. unfold corpus_line. simpl.
    rewrite <- app_assoc. done.
  - rewrite elem_of_app, elem_of_cons. intros [Hin|[?|?]]; [|done|done].
    pose proof (int_repr_chars k) as Hk. rewrite Forall_forall in Hk.
    by destruct (Hk _ Hin) as [?| ?].
Qed.

End CorpusWritten.

(** X13.  A corpus written one document per line, as the id in decimal, a
    tab, an ASCII content without newline, and a newline, loads without
    error into the mapping from each id to its lowered content with the
    newline, a later document replacing an earlier one with its id. *)
Theorem load_documents_written (uni_lower : str → str) (uni_int : str → option Z)
    (handler : str) (fs : gmap str str) (items : list (Z * str)) :
  Forall (λ item, Forall (λ c, is_ascii c = true ∧ c ≠ LF) item.2) items →
  fs !! handler = Some (mjoin (corpus_line <$> items)) →
  load_documents uni_lower uni_int handler fs
  = Ok (foldl (λ documents item,
                 <[item.1 := (ascii_lower <$> item.2) ++ [LF]]> documents)
          ∅ items).
Proof.
  intros Hitems Hfs. unfold load_documents. rewrite Hfs.
  rewrite readlines_written, load_lines_written; [done|..].
  - eapply Forall_impl; [exact Hitems|]. intros item Hitem.
    eapply Forall_impl; [exact Hitem|]. naive_solver.
  - eapply Forall_impl; [exact Hitems|]. intros item Hitem Hin.
    rewrite Forall_forall in Hitem. by destruct (Hitem _ Hin).
Qed.

Definition two_documents : list (Z * str) :=
  [(12%Z, u "The cat"); ((-3)%Z, u "A dog")].

Lemma load_documents_written_witness :
  load_documents no_uni_lower no_uni_int (u "corpus")
    {[ u "corpus" := mjoin (corpus_line <$> two_documents) ]}
  = Ok (foldl (λ documents item,
                 <[item.1 := (ascii_lower <$> item.2) ++ [LF]]> documents)
          ∅ two_documents).
Proof.
  assert (Hitems : Forall (λ item, Forall (λ c, is_ascii c = true ∧ c ≠ LF) item.2)
                     two_documents).
  { repeat constructor; by vm_compute. }
  assert (Hfs : ({[ u "corpus" := mjoin (corpus_line <$> two_documents) ]}
                   : gmap str str) !! u "corpus"
                = Some (mjoin (corpus_line <$> two_documents)))
    by apply lookup_singleton_eq.
  exact (load_documents_written no_uni_lower no_uni_int (u "corpus") _
           two_documents Hitems Hfs).
Defined.

(** ** The stopword loader *)

Lemma lstrip_whitespace_split (s : str) :
  ∃ before,
    s = before ++ lstrip_whitespace s
    ∧ Forall (λ c, ascii_whitespace c = true) before
    ∧ match lstrip_whitespace s with
      | c :: _ => ascii_whitespace c = false
      | [] => True
      end.
Proof.
  induction s as [|c r (before & Hr & Hbefore & Hhead)]; [by exists []|].
  simpl. destruct (ascii_whitespace c) eqn:Hc.
  - exists (c :: before). split; [simpl; by f_equal|]. split; [by constructor|done].
  - by exists [].
Qed.

(** [ascii_strip] cuts whitespace off both ends and nothing else. *)
Lemma ascii_strip_split (s : str) :
  ∃ before after,
    s = before ++ ascii_strip s ++ after
    ∧ Forall (λ c, ascii_whitespace c = true) before
    ∧ Forall (λ c, ascii_whitespace c = true) after
    ∧ (∀ c r, ascii_strip s = c :: r → ascii_whitespace c = false)
    ∧ (∀ c, last (ascii_strip s) = Some c → ascii_whitespace c = false).
Proof.
  unfold ascii_strip.
  destruct (lstrip_whitespace_split s) as (before & Hs & Hbefore & Hhead).
  destruct (lstrip_whitespace_split (reverse (lstrip_whitespace s)))
    as (after & Hrev & Hafter & Hlast).
  set (t1 := lstrip_whitespace s) in *.
  set (t2 := lstrip_whitespace (reverse t1)) in *.
  assert (Ht1 : t1 = reverse t2 ++ reverse after).
  { rewrite <- reverse_app, <- Hrev. by rewrite reverse_involutive. }
  exists before, (reverse after). split; [by rewrite <- Ht1|].
  split; [done|]. split; [by apply Forall_reverse|]. split.
  - intros c r Hc. rewrite Ht1, Hc in Hhead. done.
  - intros c Hc. rewrite last_reverse in Hc.
    destruct t2 as [|c' t2']; [done|]. simpl in Hc. by injection Hc as <-.
Qed.

Lemma ascii_lower_whitespace c : ascii_whitespace (ascii_lower c) = ascii_whitespace c.
Proof.
  unfold ascii_lower. destruct (N.leb_spec 65 c), (N.leb_spec c 90); cbn [andb]; try done.
  unfold ascii_whitespace.
  repeat match goal with
         | |- context [?a <=? ?b] => destruct (N.leb_spec a b); try lia
         | |- context [?a =? ?b] => destruct (N.eqb_spec a b); try lia
         end; done.
Qed.

Section StopwordFacts.

Variable uni_lower : str → str.
Variable uni_strip : str → str.

(** The stopword of an ASCII line. *)
Lemma stopword_of_ascii_line (line : str) :
  Forall (λ c, is_ascii c = true) line →
  str_lower uni_lower (str_strip uni_strip line) = ascii_lower <$> ascii_strip line.
Proof.
  intros Hline. unfold str_strip. rewrite (forallb_true _ _ Hline).
  unfold str_lower. rewrite forallb_true; [done|].
  destruct (ascii_strip_split line) as (before & after & Hsplit & _).
  rewrite Hsplit in Hline.
  by apply Forall_app in Hline as [_ [? _]%Forall_app].
Qed.

End StopwordFacts.

(** X14.  The stopwords loaded from an ASCII file are normalised: no
    stopword holds an upper-case letter, and none starts or ends with a
    whitespace character, the newline of its line included. *)
Theorem load_stopwords_normalised (uni_lower uni_strip : str → str)
    (handler : str) (fs : gmap str str) (text : str)
    (stop_words : gset str) (word : str) :
  Forall (λ c, is_ascii c = true) text →
  fs !! handler = Some text →
  load_stopwords uni_lower uni_strip handler fs = Ok stop_words →
  word ∈ stop_words →
  Forall (λ c, ¬ (65 ≤ c ∧ c ≤ 90)) word
  ∧ (∀ c r, word = c :: r → ascii_whitespace c = false)
  ∧ (∀ c, last word = Some c → ascii_whitespace c = false).
Proof.
  intros Hascii Hfs. unfold load_stopwords. rewrite Hfs. intros [= <-].
  rewrite elem_of_list_to_set, list_elem_of_fmap. intros (line & -> & Hline).
  rewrite stopword_of_ascii_line.
  2:{ apply Forall_forall. intros c Hc. rewrite Forall_forall in Hascii.
      apply Hascii. by eapply readlines_chars. }
  destruct (ascii_strip_split line) as (_ & _ & _ & _ & _ & Hhead & Hlast).
  split; [|split].
  - apply Forall_fmap, Forall_forall. intros c _. simpl. unfold ascii_lower.
    destruct (N.leb_spec 65 c), (N.leb_spec c 90); cbn [andb]; lia.
  - intros c r Hc. destruct (ascii_strip line) as [|c' r'] eqn:E; [done|].
    injection Hc as <- _. rewrite ascii_lower_whitespace. by eapply Hhead.
  - intros c. rewrite fmap_last, fmap_Some. intros (c' & Hc' & ->).
    rewrite ascii_lower_whitespace. by apply Hlast.
Qed.

Definition stopword_file : str :=
  u "The" ++ [LF] ++ u "  A " ++ [LF] ++ [LF] ++ u "of".

Lemma load_stopwords_normalised_witness :
  load_stopwords no_uni_lower no_uni_lower (u "stop") {[ u "stop" := stopword_file ]}
  = Ok {[ u "the"; u "a"; []; u "of" ]}
  ∧ Forall (λ c, ¬ (65 ≤ c ∧ c ≤ 90)) (u "the")
  ∧ (∀ c r, u "the" = c :: r → ascii_whitespace c = false)
  ∧ (∀ c, last (u "the") = Some c → ascii_whitespace c = false).
Proof.
  assert (Hload : load_stopwords no_uni_lower no_uni_lower (u "stop")
                    {[ u "stop" := stopword_file ]}
                  = Ok {[ u "the"; u "a"; []; u "of" ]})
    by (vm_compute; reflexivity).
  split; [exact Hload|].
  refine (load_stopwords_normalised no_uni_lower no_uni_lower (u "stop")
            {[ u "stop" := stopword_file ]} stopword_file
            {[ u "the"; u "a"; []; u "of" ]} (u "the") _ _ Hload _).
  - repeat constructor.
  - vm_compute. reflexivity.
  - apply elem_of_union. left. apply elem_of_union. left.
    apply elem_of_union. left. by apply elem_of_singleton.
Defined.

(** X15.  A line of the stopword file that holds whitespace only, such as an
    empty line, puts the empty string among the stopwords; the index built
    with them has no key for the empty string, whatever the documents. *)
Theorem blank_stopword_line (uni_word : N → bool) (uni_lower uni_strip : str → str)
    (handler : str) (fs : gmap str str) (text line : str) :
  fs !! handler = Some text →
  line ∈ readlines text →
  Forall (λ c, ascii_whitespace c = true) line →
  ∃ stop_words,
    load_stopwords uni_lower uni_strip handler fs = Ok stop_words
    ∧ [] ∈ stop_words
    ∧ ∀ documents,
        inverted_index (build_inverted_index uni_word documents stop_words) !! []
        = None.
Proof.
  intros Hfs Hline Hblank. unfold load_stopwords. rewrite Hfs.
  eexists. split; [done|].
  assert (Hempty : [] ∈ (list_to_set
            ((λ word, str_lower uni_lower (str_strip uni_strip word))
               <$> readlines text) : gset str)).
  { rewrite elem_of_list_to_set, list_elem_of_fmap. exists line. split; [|done].
    rewrite stopword_of_ascii_line.
    2:{ eapply Forall_impl; [exact Hblank|]. intros c. unfold ascii_whitespace, is_ascii.
        intros Hc. apply N.ltb_lt.
        repeat match type of Hc with
               | _ || _ = true => apply orb_true_iff in Hc as [Hc|Hc]
               | _ && _ = true => apply andb_true_iff in Hc as [_ Hc]
               end;
          [apply N.leb_le in Hc|apply N.leb_le in Hc|apply N.eqb_eq in Hc]; lia. }
    assert (lstrip_whitespace line = []) as Hstrip.
    { clear Hline. induction Hblank as [|c l Hc _ IH]; simpl; [done|]. by rewrite Hc. }
    unfold ascii_strip. by rewrite Hstrip. }
  split; [exact Hempty|]. intros documents.
  apply eq_None_not_Some. rewrite build_key.
  intros (d & content & _ & _ & Hno). by apply Hno.
Qed.

Lemma blank_stopword_line_witness :
  ∃ stop_words,
    load_stopwords no_uni_lower no_uni_lower (u "stop") {[ u "stop" := stopword_file ]}
    = Ok stop_words
    ∧ [] ∈ stop_words
    ∧ ∀ documents,
        inverted_index (build_inverted_index ascii_only documents stop_words) !! []
        = None.
Proof.
  apply (blank_stopword_line ascii_only no_uni_lower no_uni_lower (u "stop")
           {[ u "stop" := stopword_file ]} stopword_file [LF]).
  - vm_compute. reflexivity.
  - apply (bool_decide_unpack _). vm_compute. exact I.
  - repeat constructor.
Defined.

(** ** The build pipeline *)

(** X16.  [process_build] loads the documents before the stopwords, and
    writes nothing before both are loaded: without a corpus file it raises
    [FileNotFoundError]; with a corpus that has a malformed line it raises
    [ValueError], whether or not the stopword file exists; with a well formed
    corpus and no stopword file it raises [FileNotFoundError]. *)
Theorem process_build_outcome (uni_word : N → bool) (uni_lower : str → str)
    (uni_int : str → option Z) (uni_strip : str → str)
    (dataset stopwords output : str) (fs : gmap str str) :
  (fs !! dataset = None →
   process_build uni_word uni_lower uni_int uni_strip dataset stopwords output fs
   = Raise FileNotFoundError)
  ∧ (∀ text, fs !! dataset = Some text →
     (¬ Forall (λ line, ∃ item, parse_line uni_lower uni_int line = Ok item)
          (readlines text) →
      process_build uni_word uni_lower uni_int uni_strip dataset stopwords output fs
      = Raise ValueError)
     ∧ (Forall (λ line, ∃ item, parse_line uni_lower uni_int line = Ok item)
          (readlines text) →
        fs !! stopwords = None →
        process_build uni_word uni_lower uni_int uni_strip dataset stopwords output fs
        = Raise FileNotFoundError)).
Proof.
  unfold process_build, load_documents, load_stopwords. split.
  { by intros ->. }
  intros text ->.
  destruct (load_lines uni_lower uni_int ∅ (readlines text))
    as [documents|e] eqn:E.
  - assert (Hall := load_lines_ok_inv _ _ _ _ _ E). split; [done|].
    by intros _ ->.
  - apply load_lines_raise_kind in E as He. subst e. split; [done|].
    intros Hall.
    destruct (load_lines_ok uni_lower uni_int ∅ _ Hall) as (documents & ? & _).
    congruence.
Qed.

Lemma process_build_outcome_witness :
  process_build ascii_only no_uni_lower no_uni_int no_uni_lower
    (u "corpus") (u "missing") (u "out") {[ u "corpus" := corpus_with_bad_line ]}
  = Raise ValueError.
Proof.
  destruct (process_build_outcome ascii_only no_uni_lower no_uni_int no_uni_lower
              (u "corpus") (u "missing") (u "out")
              {[ u "corpus" := corpus_with_bad_line ]}) as (_ & Hcorpus).
  destruct (Hcorpus corpus_with_bad_line) as (Hbad & _).
  { vm_compute. reflexivity. }
  apply Hbad. intros Hall. rewrite Forall_forall in Hall.
  destruct (Hall (u "broken line" ++ [LF])) as [item Hitem].
  - apply (bool_decide_unpack _). vm_compute. exact I.
  - vm_compute in Hitem. discriminate.
Defined.

(** X17.  After a [process_build] that succeeds, only the output file has
    changed, and the index loaded from it answers a query with the ids of
    the loaded documents that have one of the queried terms among their
    tokens, the loaded stopwords left out.  No word character is a
    surrogate. *)
Theorem process_build_then_query (uni_word : N → bool) (uni_lower : str → str)
    (uni_int : str → option Z) (uni_strip : str → str)
    (dataset stopwords output : str) (fs fs' : gmap str str) :
  (∀ c, uni_word c = true → scalar_value c) →
  process_build uni_word uni_lower uni_int uni_strip dataset stopwords output fs
  = Ok fs' →
  (∀ path, path ≠ output → fs' !! path = fs !! path)
  ∧ ∃ documents stop_words loaded self,
      load_documents uni_lower uni_int dataset fs = Ok documents
      ∧ load_stopwords uni_lower uni_strip stopwords fs = Ok stop_words
      ∧ load output fs' = Ok loaded
      ∧ typed loaded = Some self
      ∧ ∀ words d,
          d ∈ query self words
          ↔ ∃ t content,
              t ∈ words ∧ (t ∉ stop_words)
              ∧ documents !! d = Some content ∧ t ∈ re_split uni_word content.
Proof.
  intros Huni. unfold process_build.
  destruct (load_documents uni_lower uni_int dataset fs) as [documents|e] eqn:Ed;
    [|done].
  destruct (load_stopwords uni_lower uni_strip stopwords fs) as [stop_words|e]
    eqn:Es; [|done].
  simpl. intros [= <-]. split.
  { intros path Hpath. unfold dump. by rewrite lookup_insert_ne. }
  destruct (load_dump (build_inverted_index uni_word documents stop_words)
              output fs) as (loaded & Hload & Htyped).
  { by apply build_keys_scalar. }
  exists documents, stop_words, loaded,
    (build_inverted_index uni_word documents stop_words).
  repeat (split; [done|]).
  intros words d. rewrite elem_of_query. split.
  - intros (t & ids & Ht & Hids & Hd).
    assert (indexed uni_word stop_words (map_to_list documents) t d)
      as (content & Hin%elem_of_map_to_list & ? & ?) by (apply build_member; eauto).
    by exists t, content.
  - intros (t & content & Ht & Hno & Hdoc & Htoken).
    assert (∃ ids,
      inverted_index (build_inverted_index uni_word documents stop_words) !! t
      = Some ids ∧ d ∈ ids) as (ids & ? & ?).
    { apply build_member. exists content. by rewrite elem_of_map_to_list. }
    by exists t, ids.
Qed.

Definition pipeline_files : gmap str str :=
  {[ u "corpus" := mjoin (corpus_line <$> two_documents);
     u "stop" := stopword_file ]}.

Lemma process_build_then_query_witness :
  ∃ fs',
    process_build latin1_word no_uni_lower no_uni_int no_uni_lower
      (u "corpus") (u "stop") (u "out") pipeline_files = Ok fs'
    ∧ (∀ path, path ≠ u "out" → fs' !! path = pipeline_files !! path)
    ∧ ∃ documents stop_words loaded self,
        load_documents no_uni_lower no_uni_int (u "corpus") pipeline_files
        = Ok documents
        ∧ load_stopwords no_uni_lower no_uni_lower (u "stop") pipeline_files
          = Ok stop_words
        ∧ load (u "out") fs' = Ok loaded
        ∧ typed loaded = Some self
        ∧ ∀ words d,
            d ∈ query self words
            ↔ ∃ t content,
                t ∈ words ∧ (t ∉ stop_words)
                ∧ documents !! d = Some content
                ∧ t ∈ re_split latin1_word content.
Proof.
  destruct (process_build latin1_word no_uni_lower no_uni_int no_uni_lower
              (u "corpus") (u "stop") (u "out") pipeline_files) as [fs'|e] eqn:E;
    [|vm_compute in E; discriminate].
  exists fs'. split; [done|].
  exact (process_build_then_query latin1_word no_uni_lower no_uni_int no_uni_lower
           (u "corpus") (u "stop") (u "out") pipeline_files fs'
           latin1_word_scalar E).
Defined.

(** ** The tokenizer and the stopwords, further *)

(** X18.  Splitting loses the separators and nothing else: the pieces, put
    end to end, are the word characters of the content in their order.  The
    split is never the empty list. *)
Theorem re_split_keeps_words (uni_word : N → bool) (content : str) :
  mjoin (re_split uni_word content) = filter (λ c, is_word uni_word c = true) content
  ∧ re_split uni_word content ≠ [].
Proof.
  split; [|apply re_split_nonempty].
  induction content as [|c r IH]; [done|].
  destruct (is_word uni_word c) eqn:Hc.
  - destruct (re_split_cons_word uni_word c r Hc) as (p & ps & Hr & ->).
    rewrite filter_cons_True by done. rewrite <- IH, Hr. done.
  - rewrite filter_cons_False by congruence. rewrite <- IH.
    rewrite (re_split_cons_separator uni_word c r Hc).
    destruct r as [|c' r']; [done|]. by destruct (is_word uni_word c').
Qed.

(** X19.  More stopwords, fewer entries, and nothing else changes: with the
    stopwords of two sets together, the index lists [d] under [t] exactly
    when the index built with the first set does and [t] is not in the
    second. *)
Theorem build_more_stopwords (uni_word : N → bool) (documents : gmap Z str)
    (stopwords more : gset str) (t : str) (d : Z) :
  lists (build_inverted_index uni_word documents (stopwords ∪ more)) t d
  ↔ lists (build_inverted_index uni_word documents stopwords) t d ∧ t ∉ more.
Proof.
  unfold lists. rewrite !build_member. unfold indexed.
  setoid_rewrite not_elem_of_union. naive_solver.
Qed.
